(** * VQE for H2: a shallow embedding of [mve.py]

    The script loads the H2 Hamiltonian and Hartree-Fock occupation from a
    chemistry dataset, defines two QNodes ([circuit], [circuit_2]) on a
    statevector device and runs a [for] loop that asks [jax.grad] for a
    gradient and feeds it to an [optax.sgd] optimizer.

    Everything the script calls lives in PennyLane, JAX and optax.  Those
    calls are modelled here by their documented behaviour:
    - amplitudes are exact complex numbers over [R] (float64 rounding is
      not modelled);
    - Python exceptions are the [Raise] results of an error monad, and the
      module-level variables of the script are one record, [globals]. *)

From Stdlib Require Import Reals Lra Lia List ZArith Bool Arith.
From Stdlib Require Import ClassicalEpsilon.
Import ListNotations.

Local Open Scope R_scope.

(** ** Exceptions and results *)

Inductive exn : Set :=
| TypeError
| ValueError
| WireError.

Inductive result (A : Type) : Type :=
| Ok (a : A)
| Raise (e : exn).

Arguments Ok {A} a.
Arguments Raise {A} e.

Definition rbind {A B : Type} (r : result A) (k : A -> result B) : result B :=
  match r with
  | Ok a => k a
  | Raise e => Raise e
  end.

Definition guard (b : bool) (e : exn) : result unit :=
  if b then Ok tt else Raise e.

Declare Scope result_scope.
Delimit Scope result_scope with result.
Notation "x <- r ;; k" := (rbind r (fun x => k))
  (at level 61, r at next level, right associativity) : result_scope.
Notation "r ;;; k" := (rbind r (fun _ => k))
  (at level 61, right associativity) : result_scope.

(** ** Complex amplitudes *)

Definition complex : Type := (R * R)%type.

Definition c0 : complex := (0, 0).
Definition c1 : complex := (1, 0).
Definition ci : complex := (0, 1).

Definition cadd (a b : complex) : complex := (fst a + fst b, snd a + snd b).
Definition copp (a : complex) : complex := (- fst a, - snd a).
Definition cmul (a b : complex) : complex :=
  (fst a * fst b - snd a * snd b, fst a * snd b + snd a * fst b).
Definition cconj (a : complex) : complex := (fst a, - snd a).
Definition cscale (r : R) (a : complex) : complex := (r * fst a, r * snd a).
Definition csum (l : list complex) : complex := fold_right cadd c0 l.

(** ** The statevector simulator

    A register of [nq] wires holds [2 ^ nq] amplitudes; amplitude [k]
    belongs to the computational basis state whose wire [w] carries bit
    [nq - 1 - w] of [k] (wire 0 is the most significant bit). *)

Definition statevector : Type := list complex.

Definition wire_pos (nq w : nat) : nat := (nq - 1 - w)%nat.

Definition wire_bit (nq k w : nat) : bool := Nat.testbit k (wire_pos nq w).

Definition wires_mask (nq : nat) (ws : list nat) : nat :=
  fold_right (fun w m => Nat.lxor (2 ^ wire_pos nq w) m) 0%nat ws.

Definition amp (psi : statevector) (k : nat) : complex := nth k psi c0.

Definition one_hot (dim idx : nat) : statevector :=
  map (fun k => if (k =? idx)%nat then c1 else c0) (seq 0 dim).

Definition wires_on_device (nq : nat) (ws : list nat) : bool :=
  forallb (fun w => (w <? nq)%nat) ws.

Fixpoint wires_unique (ws : list nat) : bool :=
  match ws with
  | [] => true
  | w :: ws' => negb (existsb (Nat.eqb w) ws') && wires_unique ws'
  end.

(** *** qml.BasisState *)

Definition is_bit (b : Z) : bool := ((b =? 0) || (b =? 1))%Z.

Fixpoint basis_index (nq : nat) (state : list Z) (ws : list nat) : nat :=
  match state, ws with
  | b :: state', w :: ws' =>
      (Z.to_nat b * 2 ^ wire_pos nq w + basis_index nq state' ws')%nat
  | _, _ => 0%nat
  end.

Definition basis_state (nq : nat) (state : list Z) (ws : list nat)
  : result statevector :=
  (guard (length state =? length ws)%nat ValueError ;;;
   guard (forallb is_bit state) ValueError ;;;
   guard (wires_on_device nq ws && wires_unique ws) WireError ;;;
   Ok (one_hot (2 ^ nq) (basis_index nq state ws)))%result.

(** *** qml.DoubleExcitation

    An SO(2) rotation by [phi / 2] in the plane spanned by [|0011>] and
    [|1100>] of the four wires it acts on:
    [|0011> -> cos(phi/2) |0011> + sin(phi/2) |1100>] and
    [|1100> -> cos(phi/2) |1100> - sin(phi/2) |0011>];
    every other basis state is left alone. *)

Definition double_excitation_amp (nq : nat) (phi : R) (w0 w1 w2 w3 : nat)
  (psi : statevector) (k : nat) : complex :=
  let c := cos (phi / 2) in
  let s := sin (phi / 2) in
  let partner := Nat.lxor k (wires_mask nq [w0; w1; w2; w3]) in
  match wire_bit nq k w0, wire_bit nq k w1,
        wire_bit nq k w2, wire_bit nq k w3 with
  | false, false, true, true =>
      cadd (cscale c (amp psi k)) (copp (cscale s (amp psi partner)))
  | true, true, false, false =>
      cadd (cscale s (amp psi partner)) (cscale c (amp psi k))
  | _, _, _, _ => amp psi k
  end.

Definition double_excitation (nq : nat) (phi : R) (ws : list nat)
  (psi : statevector) : result statevector :=
  match ws with
  | [w0; w1; w2; w3] =>
      (guard (wires_on_device nq ws && wires_unique ws) WireError ;;;
       Ok (map (double_excitation_amp nq phi w0 w1 w2 w3 psi)
               (seq 0 (2 ^ nq))))%result
  | _ => Raise ValueError
  end.

(** *** Hamiltonians: weighted sums of Pauli words *)

Inductive pauli : Set := PauliX | PauliY | PauliZ.

Definition pauli_word : Type := list (nat * pauli).

Record Hamiltonian : Type := mkHamiltonian {
  terms : list (R * pauli_word)
}.

Definition wires (h : Hamiltonian) : list nat :=
  nodup Nat.eq_dec (flat_map (fun t => map fst (snd t)) (terms h)).

Definition flips (p : pauli) : bool :=
  match p with
  | PauliZ => false
  | _ => true
  end.

Definition pauli_phase (nq k : nat) (wp : nat * pauli) : complex :=
  match snd wp with
  | PauliX => c1
  | PauliY => if wire_bit nq k (fst wp) then ci else copp ci
  | PauliZ => if wire_bit nq k (fst wp) then copp c1 else c1
  end.

Definition word_phase (nq k : nat) (word : pauli_word) : complex :=
  fold_right (fun wp acc => cmul (pauli_phase nq k wp) acc) c1 word.

Definition word_mask (nq : nat) (word : pauli_word) : nat :=
  wires_mask nq (map fst (filter (fun wp => flips (snd wp)) word)).

Definition apply_word (nq : nat) (word : pauli_word) (psi : statevector)
  : statevector :=
  map (fun k => cmul (word_phase nq k word)
                     (amp psi (Nat.lxor k (word_mask nq word))))
      (seq 0 (2 ^ nq)).

Definition inner (phi psi : statevector) : complex :=
  csum (map (fun p => cmul (cconj (fst p)) (snd p)) (combine phi psi)).

Definition expval_word (nq : nat) (word : pauli_word) (psi : statevector) : R :=
  fst (inner psi (apply_word nq word psi)).

Definition expval (nq : nat) (h : Hamiltonian) (psi : statevector) : R :=
  fold_right Rplus 0
    (map (fun t => fst t * expval_word nq (snd t) psi) (terms h)).

(** *** Tapes and the device *)

Inductive operation : Type :=
| BasisState (state : list Z) (ws : list nat)
| DoubleExcitation (phi : R) (ws : list nat).

Record tape : Type := mkTape {
  operations : list operation;
  measurement : Hamiltonian
}.

Record device : Type := mkDevice {
  dev_wires : nat
}.

Definition apply_operation (nq : nat) (op : operation) (psi : statevector)
  : result statevector :=
  match op with
  | BasisState state ws => basis_state nq state ws
  | DoubleExcitation phi ws => double_excitation nq phi ws psi
  end.

Fixpoint apply_operations (nq : nat) (ops : list operation)
  (psi : statevector) : result statevector :=
  match ops with
  | [] => Ok psi
  | op :: ops' =>
      (psi' <- apply_operation nq op psi ;; apply_operations nq ops' psi')%result
  end.

Definition execute (d : device) (t : tape) : result R :=
  let nq := dev_wires d in
  (psi <- apply_operations nq (operations t) (one_hot (2 ^ nq) 0) ;;
   guard (wires_on_device nq (wires (measurement t))) WireError ;;;
   Ok (expval nq (measurement t) psi))%result.

(** ** jax.grad

    Python call arguments are dynamically typed: the script passes an
    integer array (the occupation vector) and a float64 scalar. *)

Inductive value : Type :=
| IntArray (xs : list Z)
| Float (x : R).

(** The derivative of a real function at a point, when it has one. *)
Definition Derive (f : R -> R) (x : R) : R :=
  epsilon (inhabits 0) (fun l => derivable_pt_lim f x l).

Definition replace_arg (args : list value) (i : nat) (v : value) : list value :=
  firstn i args ++ v :: skipn (S i) args.

Definition value_or_zero (r : result R) : R :=
  match r with
  | Ok y => y
  | Raise _ => 0
  end.

(** [jax.grad(fun, argnums)] called on positional arguments: the argument
    at position [argnums] is the one differentiated.  Under the default
    [allow_int=False] an integer-valued argument at that position is
    rejected with [TypeError] before [fun] is traced; otherwise [fun] is
    evaluated, its exceptions propagate, and the derivative is returned. *)
Definition jax_grad (fn : list value -> result R) (argnums : nat)
  (args : list value) : result R :=
  match nth_error args argnums with
  | None => Raise TypeError
  | Some (IntArray _) => Raise TypeError
  | Some (Float x) =>
      (_ <- fn args ;;
       Ok (Derive (fun t => value_or_zero
                              (fn (replace_arg args argnums (Float t)))) x))%result
  end.

(** [argnums] is a keyword argument of [jax.grad] whose default is 0. *)
Definition jax_grad_default_argnums : nat := 0.

(** ** optax.sgd *)

Inductive EmptyState : Set := mkEmptyState.

Definition OptState : Set := (EmptyState * EmptyState)%type.

Record GradientTransformation : Type := mkGradientTransformation {
  init : R -> OptState;
  update : R -> OptState -> R * OptState
}.

Definition scale (step_size : R) (g : R) : R := step_size * g.

(** [optax.sgd(learning_rate)] without momentum: the identity chained with
    a scaling by [- learning_rate]; neither keeps any state. *)
Definition sgd (learning_rate : R) : GradientTransformation :=
  {| init := fun _ => (mkEmptyState, mkEmptyState);
     update := fun g st => (scale (- learning_rate) g, st) |}.

Definition apply_updates (params upd : R) : R := params + upd.

(** ** The script's module-level state

    [h2.hf_state] is the occupation vector of the dataset, an integer
    array such as [[1, 1, 0, 0]]. *)

Record dataset : Type := mkDataset {
  hamiltonian : Hamiltonian;
  hf_state : list Z
}.

Record globals : Type := mkGlobals {
  h2 : dataset;
  H : Hamiltonian;
  qubits : nat;
  dev : device;
  hf : list Z;
  max_iterations : nat;
  conv_tol : R;
  theta : R;
  angle : list R;
  opt_state : OptState;
  n : option nat;
  gradient : option R;
  updates : option R
}.

Definition opt : GradientTransformation := sgd (4 / 10).

Definition set_n (i : nat) (s : globals) : globals :=
  mkGlobals (h2 s) (H s) (qubits s) (dev s) (hf s) (max_iterations s)
    (conv_tol s) (theta s) (angle s) (opt_state s) (Some i) (gradient s)
    (updates s).

Definition set_gradient (g : R) (s : globals) : globals :=
  mkGlobals (h2 s) (H s) (qubits s) (dev s) (hf s) (max_iterations s)
    (conv_tol s) (theta s) (angle s) (opt_state s) (n s) (Some g)
    (updates s).

Definition set_updates (u : R) (os : OptState) (s : globals) : globals :=
  mkGlobals (h2 s) (H s) (qubits s) (dev s) (hf s) (max_iterations s)
    (conv_tol s) (theta s) (angle s) os (n s) (gradient s) (Some u).

Definition set_theta (t : R) (s : globals) : globals :=
  mkGlobals (h2 s) (H s) (qubits s) (dev s) (hf s) (max_iterations s)
    (conv_tol s) t (angle s) (opt_state s) (n s) (gradient s) (updates s).

(** ** The two QNodes

    A QNode queues its operations on a tape and hands the tape to the
    device.  Both read [H], [qubits] and [dev] from the module. *)

Definition circuit_tape (s : globals) (param : R) : tape :=
  {| operations := [BasisState (hf s) (seq 0 (qubits s));
                    DoubleExcitation param [0; 1; 2; 3]%nat];
     measurement := H s |}.

Definition circuit (s : globals) (param : R) : result R :=
  execute (dev s) (circuit_tape s param).

Definition circuit_2_tape (s : globals) (state : list Z) (param : R) : tape :=
  {| operations := [BasisState state (seq 0 (qubits s));
                    DoubleExcitation param [0; 1; 2; 3]%nat];
     measurement := H s |}.

Definition circuit_2 (s : globals) (state : list Z) (param : R) : result R :=
  execute (dev s) (circuit_2_tape s state param).

(** The QNodes as Python callables on positional arguments.  The script
    only passes a float scalar for [param] and the integer occupation
    vector for [state]; a call of any other shape is rejected. *)
Definition circuit_py (s : globals) (args : list value) : result R :=
  match args with
  | [Float param] => circuit s param
  | _ => Raise TypeError
  end.

Definition circuit_2_py (s : globals) (args : list value) : result R :=
  match args with
  | [IntArray state; Float param] => circuit_2 s state param
  | _ => Raise TypeError
  end.

(** ** Statements: state passing with exceptions

    A raised exception leaves the module state as it was at the raise. *)

Definition M (A : Type) : Type := globals -> globals * result A.

Definition ret {A : Type} (a : A) : M A := fun s => (s, Ok a).

Definition bind {A B : Type} (m : M A) (k : A -> M B) : M B :=
  fun s =>
    match m s with
    | (s', Ok a) => k a s'
    | (s', Raise e) => (s', Raise e)
    end.

Definition get : M globals := fun s => (s, Ok s).
Definition modify (f : globals -> globals) : M unit := fun s => (f s, Ok tt).
Definition lift {A : Type} (r : result A) : M A := fun s => (s, r).

Declare Scope stmt_scope.
Delimit Scope stmt_scope with stmt.
Notation "x <~ m ; k" := (bind m (fun x => k))
  (at level 61, m at next level, right associativity) : stmt_scope.
Notation "m >> k" := (bind m (fun _ => k))
  (at level 61, right associativity) : stmt_scope.

(** Lines 36-40: the body of [for n in range(max_iterations)]. *)
Definition loop_body (i : nat) : M unit :=
  (modify (set_n i) >>
   s <~ get ;
   g <~ lift (jax_grad (circuit_2_py s) jax_grad_default_argnums
                [IntArray (hf_state (h2 s)); Float (theta s)]) ;
   modify (set_gradient g) >>
   s1 <~ get ;
   modify (set_updates (fst (update opt g (opt_state s1)))
                       (snd (update opt g (opt_state s1)))) >>
   s2 <~ get ;
   modify (set_theta (apply_updates (theta s2)
                        (fst (update opt g (opt_state s1))))))%stmt.

(** What a run of the loop leaves behind: the module state, how many
    times the body ran to its end, the value of [theta] after each of
    those, and whether an exception ended the loop. *)
Record run : Type := mkRun {
  final : globals;
  completed : nat;
  trajectory : list R;
  status : result unit
}.

Fixpoint for_in (l : list nat) (body : nat -> M unit) (s : globals) : run :=
  match l with
  | [] => mkRun s 0 [] (Ok tt)
  | i :: l' =>
      match body i s with
      | (s', Ok _) =>
          let r := for_in l' body s' in
          mkRun (final r) (S (completed r)) (theta s' :: trajectory r) (status r)
      | (s', Raise e) => mkRun s' 0 [] (Raise e)
      end
  end.

(** Lines 9-34: everything the script binds before the loop. *)
Definition load (h2_0 : dataset) : globals :=
  {| h2 := h2_0;
     H := hamiltonian h2_0;
     qubits := length (wires (hamiltonian h2_0));
     dev := mkDevice (length (wires (hamiltonian h2_0)));
     hf := hf_state h2_0;
     max_iterations := 100;
     conv_tol := 1 / 1000000;
     theta := 0;
     angle := [0];
     opt_state := init opt 0;
     n := None;
     gradient := None;
     updates := None |}.

Definition optimization_loop (s : globals) : run :=
  for_in (seq 0 (max_iterations s)) loop_body s.

Definition main (h2_0 : dataset) : run :=
  optimization_loop (load h2_0).

(** ** Definitions used by the statements *)

(** Whether basis state [k] lies in the plane the gate on wires [0,1,2,3]
    rotates, that is, reads [0011] or [1100] on those wires. *)
Definition in_plane (nq k : nat) : bool :=
  match wire_bit nq k 0, wire_bit nq k 1, wire_bit nq k 2, wire_bit nq k 3 with
  | false, false, true, true => true
  | true, true, false, false => true
  | _, _, _, _ => false
  end.

(** The gate brings a prepared basis state back to itself up to sign. *)
Definition returns_to_reference (nq : nat) (state : list Z) (t : R) : Prop :=
  exists psi0 psi : statevector,
    basis_state nq state (seq 0 nq) = Ok psi0 /\
    double_excitation nq t [0; 1; 2; 3]%nat psi0 = Ok psi /\
    (psi = psi0 \/ psi = map copp psi0).

(** A module state with another tolerance bound to [conv_tol]. *)
Definition set_conv_tol (c : R) (s : globals) : globals :=
  mkGlobals (h2 s) (H s) (qubits s) (dev s) (hf s) (max_iterations s)
    c (theta s) (angle s) (opt_state s) (n s) (gradient s) (updates s).

(** A module state with another list bound to [angle]. *)
Definition with_angle (a : list R) (s : globals) : globals :=
  mkGlobals (h2 s) (H s) (qubits s) (dev s) (hf s) (max_iterations s)
    (conv_tol s) (theta s) a (opt_state s) (n s) (gradient s) (updates s).

(** The inputs the loop reads. *)
Definition same_inputs (s1 s2 : globals) : Prop :=
  h2 s1 = h2 s2 /\ H s1 = H s2 /\ qubits s1 = qubits s2 /\ dev s1 = dev s2 /\
  max_iterations s1 = max_iterations s2 /\ theta s1 = theta s2 /\
  opt_state s1 = opt_state s2.

(** The right-hand side of line 38. *)
Definition gradient_call (s : globals) : result R :=
  jax_grad (circuit_2_py s) jax_grad_default_argnums
    [IntArray (hf_state (h2 s)); Float (theta s)].

(** The loop body around any computation of the gradient. *)
Definition body_with (grad : globals -> result R) (i : nat) : M unit :=
  (modify (set_n i) >>
   s <~ get ;
   g <~ lift (grad s) ;
   modify (set_gradient g) >>
   s1 <~ get ;
   modify (set_updates (fst (update opt g (opt_state s1)))
                       (snd (update opt g (opt_state s1)))) >>
   s2 <~ get ;
   modify (set_theta (apply_updates (theta s2)
                        (fst (update opt g (opt_state s1))))))%stmt.

(** What no statement of the loop assigns. *)
Definition frozen (s s' : globals) : Prop :=
  h2 s' = h2 s /\ H s' = H s /\ qubits s' = qubits s /\ dev s' = dev s /\
  hf s' = hf s /\ max_iterations s' = max_iterations s /\
  conv_tol s' = conv_tol s /\ angle s' = angle s.

(** Real and complex functions of theta that have a derivative everywhere. *)
Definition differentiable (f : R -> R) : Prop :=
  forall x, exists l, derivable_pt_lim f x l.

Definition cdifferentiable (F : R -> complex) : Prop :=
  differentiable (fun t => fst (F t)) /\ differentiable (fun t => snd (F t)).

(** Whether wire [w] is occupied in an occupation vector. *)
Definition occupied (state : list Z) (w : nat) : bool := (nth w state 0 =? 1)%Z.

(** Whether an occupation vector reads [0011] or [1100] on wires 0..3. *)
Definition reference_in_plane (state : list Z) : bool :=
  match occupied state 0, occupied state 1, occupied state 2, occupied state 3 with
  | false, false, true, true => true
  | true, true, false, false => true
  | _, _, _, _ => false
  end.

(** The basis state a double excitation on wires 0..3 pairs [k] with. *)
Definition partner (nq k : nat) : nat :=
  Nat.lxor k (wires_mask nq [0; 1; 2; 3]%nat).

(** The real part of [<phi| H |chi>]. *)
Definition hform (nq : nat) (h : Hamiltonian) (phi chi : statevector) : R :=
  fold_right Rplus 0
    (map (fun t => fst t * fst (inner phi (apply_word nq (snd t) chi)))
         (terms h)).

(** The two off-diagonal elements of [H] between basis states [i] and [j]. *)
Definition coupling (nq : nat) (h : Hamiltonian) (i j : nat) : R :=
  hform nq h (one_hot (2 ^ nq) i) (one_hot (2 ^ nq) j) +
  hform nq h (one_hot (2 ^ nq) j) (one_hot (2 ^ nq) i).

Definition norm2 (psi : statevector) : R :=
  fold_right Rplus 0 (map (fun a => fst a * fst a + snd a * snd a) psi).

Definition unit_amp (i k : nat) : complex := if (k =? i)%nat then c1 else c0.

(** A sample dataset: four wires and the term structure of a molecular
    Hamiltonian in the minimal basis.  The coefficients are illustrative;
    the theorems below hold for every dataset. *)

Definition Z_ (w : nat) : nat * pauli := (w, PauliZ).
Definition X_ (w : nat) : nat * pauli := (w, PauliX).
Definition Y_ (w : nat) : nat * pauli := (w, PauliY).

Definition sample_hamiltonian : Hamiltonian :=
  {| terms :=
       [ (- (1 / 10), []);
         (1 / 5, [Z_ 0]);
         (1 / 5, [Z_ 1]);
         (- (1 / 4), [Z_ 2]);
         (- (1 / 4), [Z_ 3]);
         (1 / 6, [Z_ 0; Z_ 1]);
         (1 / 20, [Y_ 0; X_ 1; X_ 2; Y_ 3]);
         (- (1 / 20), [Y_ 0; Y_ 1; X_ 2; X_ 3]) ] |}.

Definition sample_h2 : dataset :=
  {| hamiltonian := sample_hamiltonian; hf_state := [1; 1; 0; 0]%Z |}.

(** * Properties *)

(** ** The loop *)

Lemma gradient_call_result (s : globals) :
  jax_grad (circuit_2_py s) jax_grad_default_argnums
    [IntArray (hf_state (h2 s)); Float (theta s)] = Raise TypeError.
Proof. reflexivity. Qed.

Lemma loop_body_result (i : nat) (s : globals) :
  loop_body i s = (set_n i s, Raise TypeError).
Proof.
  unfold loop_body, bind, modify, get, lift.
  now rewrite gradient_call_result.
Qed.

Lemma for_in_loop_body (l : list nat) (s : globals) :
  for_in l loop_body s =
  match l with
  | [] => mkRun s 0 [] (Ok tt)
  | i :: _ => mkRun (set_n i s) 0 [] (Raise TypeError)
  end.
Proof.
  destruct l as [|i l']; [reflexivity|].
  cbn [for_in]. now rewrite loop_body_result.
Qed.

Lemma main_result (h2_0 : dataset) :
  main h2_0 = mkRun (set_n 0 (load h2_0)) 0 [] (Raise TypeError).
Proof.
  unfold main, optimization_loop. now rewrite for_in_loop_body.
Qed.

Lemma sgd_update_rule (t g : R) (st : OptState) :
  apply_updates t (fst (update opt g st)) = t - 4 / 10 * g /\
  snd (update opt g st) = st.
Proof.
  unfold apply_updates, opt, sgd, scale. simpl. split; [lra | reflexivity].
Qed.

Lemma Derive_unique (f : R -> R) (x l : R) :
  derivable_pt_lim f x l -> Derive f x = l.
Proof.
  intros Hl. unfold Derive.
  apply (uniqueness_limite f x); [|exact Hl].
  apply epsilon_spec. now exists l.
Qed.

(** What [jax.grad(circuit_2, argnums=1)] would return: the derivative in
    the circuit's second argument. *)
Lemma jax_grad_argnums_1 (s : globals) (state : list Z) (t e : R) :
  circuit_2 s state t = Ok e ->
  jax_grad (circuit_2_py s) 1 [IntArray state; Float t] =
  Ok (Derive (fun x => value_or_zero (circuit_2 s state x)) t).
Proof.
  intros He. unfold jax_grad. simpl. now rewrite He.
Qed.

(** The commented-out call of line 37, [jax.grad(circuit)(theta)]. *)
Lemma jax_grad_circuit (s : globals) (t e : R) :
  circuit s t = Ok e ->
  jax_grad (circuit_py s) jax_grad_default_argnums [Float t] =
  Ok (Derive (fun x => value_or_zero (circuit s x)) t).
Proof.
  intros He. unfold jax_grad. simpl. now rewrite He.
Qed.

(** C1, as the code has it.  The gradient call of line 38 differentiates
    positional argument 0 of [circuit_2], which is the integer reference
    state and not theta; [jax.grad] rejects it with [TypeError], and no
    gradient reaches the optimizer. *)
Theorem gradient_call_differentiates_reference_state :
  forall (h2_0 : dataset) (i : nat),
    let s := set_n i (load h2_0) in
    let args := [IntArray (hf_state (h2 s)); Float (theta s)] in
    nth_error args jax_grad_default_argnums = Some (IntArray (hf_state h2_0)) /\
    nth_error args 1 = Some (Float (theta s)) /\
    jax_grad (circuit_2_py s) jax_grad_default_argnums args = Raise TypeError /\
    gradient (fst (loop_body i (load h2_0))) = None /\
    gradient (final (main h2_0)) = None.
Proof.
  intros h2_0 i. rewrite main_result, loop_body_result. cbv zeta.
  repeat split.
Qed.

(** C2, as the code has it.  The script binds [max_iterations = 100] and
    never reads [conv_tol], but the loop is left by the [TypeError] of its
    first pass: no pass of the body runs to its end. *)
Theorem loop_aborts_in_first_pass :
  forall (h2_0 : dataset) (tol : R),
    max_iterations (load h2_0) = 100%nat /\
    completed (main h2_0) = 0%nat /\
    status (main h2_0) = Raise TypeError /\
    n (final (main h2_0)) = Some 0%nat /\
    completed (optimization_loop (set_conv_tol tol (load h2_0))) =
    completed (main h2_0) /\
    status (optimization_loop (set_conv_tol tol (load h2_0))) =
    status (main h2_0).
Proof.
  intros h2_0 tol. rewrite main_result.
  unfold optimization_loop. rewrite for_in_loop_body.
  repeat split.
Qed.

(** C3, as the code has it.  The update of lines 39-40 is
    [theta - 0.4 * gradient], but it is never reached: the run ends with
    theta, the optimizer state and [updates] as they were loaded. *)
Theorem theta_never_updated :
  forall (h2_0 : dataset),
    (forall t g st, apply_updates t (fst (update opt g st)) = t - 4 / 10 * g) /\
    theta (final (main h2_0)) = theta (load h2_0) /\
    updates (final (main h2_0)) = None /\
    opt_state (final (main h2_0)) = opt_state (load h2_0) /\
    trajectory (main h2_0) = [].
Proof.
  intros h2_0. rewrite main_result. split.
  - intros t g st. apply sgd_update_rule.
  - repeat split.
Qed.

(** ** Lists of amplitudes *)

Lemma amp_map_seq (f : nat -> complex) (m k : nat) :
  (k < m)%nat -> amp (map f (seq 0 m)) k = f k.
Proof.
  intros Hk. unfold amp.
  rewrite (nth_indep _ c0 (f 0%nat)) by now rewrite length_map, length_seq.
  rewrite map_nth, seq_nth by exact Hk. reflexivity.
Qed.

Lemma amp_one_hot_other (dim idx k : nat) :
  k <> idx -> amp (one_hot dim idx) k = c0.
Proof.
  intros Hne. unfold one_hot.
  destruct (Nat.lt_ge_cases k dim) as [Hlt|Hge].
  - rewrite amp_map_seq by exact Hlt.
    apply Nat.eqb_neq in Hne. now rewrite Hne.
  - unfold amp. apply nth_overflow. now rewrite length_map, length_seq.
Qed.

Lemma amp_one_hot (dim idx k : nat) :
  (k < dim)%nat ->
  amp (one_hot dim idx) k = if (k =? idx)%nat then c1 else c0.
Proof. intros Hlt. unfold one_hot. now rewrite amp_map_seq. Qed.

Lemma length_one_hot (dim idx : nat) : length (one_hot dim idx) = dim.
Proof. unfold one_hot. now rewrite length_map, length_seq. Qed.

Lemma map_amp_seq (psi : statevector) :
  map (amp psi) (seq 0 (length psi)) = psi.
Proof.
  apply (nth_ext _ _ c0 c0).
  - now rewrite length_map, length_seq.
  - intros k Hk. rewrite length_map, length_seq in Hk.
    change (nth k (map (amp psi) (seq 0 (length psi))) c0)
      with (amp (map (amp psi) (seq 0 (length psi))) k).
    now rewrite amp_map_seq.
Qed.

(** ** Bits of a basis index *)

Lemma testbit_small (r m : nat) : (r < 2 ^ m)%nat -> Nat.testbit r m = false.
Proof.
  intros Hr. rewrite Nat.testbit_eqb, Nat.div_small by exact Hr. reflexivity.
Qed.

Lemma testbit_pow2_add_high (r m : nat) :
  (r < 2 ^ m)%nat -> Nat.testbit (2 ^ m + r) m = true.
Proof.
  intros Hr. rewrite Nat.testbit_eqb.
  replace (2 ^ m + r)%nat with (1 * 2 ^ m + r)%nat by lia.
  rewrite Nat.div_add_l by (apply Nat.pow_nonzero; lia).
  rewrite Nat.div_small by exact Hr. reflexivity.
Qed.

Lemma testbit_pow2_add_low (r m p : nat) :
  (p < m)%nat -> Nat.testbit (2 ^ m + r) p = Nat.testbit r p.
Proof.
  intros Hp. rewrite !Nat.testbit_eqb.
  replace (2 ^ m)%nat with (2 ^ (m - p) * 2 ^ p)%nat
    by (rewrite <- Nat.pow_add_r; f_equal; lia).
  rewrite Nat.div_add_l by (apply Nat.pow_nonzero; lia).
  replace (m - p)%nat with (S (m - p - 1)) by lia.
  rewrite Nat.pow_succ_r'.
  replace (2 * 2 ^ (m - p - 1) + r / 2 ^ p)%nat
    with (r / 2 ^ p + 2 ^ (m - p - 1) * 2)%nat by lia.
  now rewrite Nat.Div0.mod_add.
Qed.

Lemma is_bit_cases (b : Z) : is_bit b = true -> b = 0%Z \/ b = 1%Z.
Proof.
  unfold is_bit. intros Hb. apply orb_true_iff in Hb.
  destruct Hb as [Hb|Hb]; apply Z.eqb_eq in Hb; auto.
Qed.

Lemma basis_index_seq (nq : nat) (state : list Z) :
  forall i : nat,
    (i + length state = nq)%nat ->
    forallb is_bit state = true ->
    (basis_index nq state (seq i (length state)) < 2 ^ length state)%nat /\
    forall j, (j < length state)%nat ->
      Nat.testbit (basis_index nq state (seq i (length state)))
                  (length state - 1 - j)
      = (nth j state 0 =? 1)%Z.
Proof.
  induction state as [|b st IH]; intros i Hlen Hbits.
  - simpl. split; [lia | intros j Hj; lia].
  - cbn [length] in *. cbn [forallb] in Hbits.
    apply andb_true_iff in Hbits. destruct Hbits as [Hb Hst].
    destruct (IH (S i) ltac:(lia) Hst) as [Hlt Hbit].
    cbn [seq basis_index].
    assert (Hpos : wire_pos nq i = length st) by (unfold wire_pos; lia).
    rewrite Hpos.
    set (r := basis_index nq st (seq (S i) (length st))) in *.
    split.
    + rewrite Nat.pow_succ_r'.
      destruct (is_bit_cases b Hb) as [-> | ->]; simpl Z.to_nat; lia.
    + intros j Hj. destruct j as [|j'].
      * replace (S (length st) - 1 - 0)%nat with (length st) by lia.
        cbn [nth].
        destruct (is_bit_cases b Hb) as [-> | ->]; simpl Z.to_nat.
        -- rewrite Nat.mul_0_l, Nat.add_0_l. now apply testbit_small.
        -- rewrite Nat.mul_1_l. now apply testbit_pow2_add_high.
      * replace (S (length st) - 1 - S j')%nat
          with (length st - 1 - j')%nat by lia.
        cbn [nth]. rewrite <- Hbit by lia.
        destruct (is_bit_cases b Hb) as [-> | ->]; simpl Z.to_nat.
        -- now rewrite Nat.mul_0_l, Nat.add_0_l.
        -- rewrite Nat.mul_1_l. apply testbit_pow2_add_low. lia.
Qed.

Lemma wires_on_device_seq (nq i m : nat) :
  (i + m <= nq)%nat -> wires_on_device nq (seq i m) = true.
Proof.
  revert i. induction m as [|m IH]; intros i Hle; [reflexivity|].
  cbn [seq wires_on_device forallb].
  apply andb_true_iff. split.
  - apply Nat.ltb_lt. lia.
  - apply IH. lia.
Qed.

Lemma wires_unique_seq (i m : nat) : wires_unique (seq i m) = true.
Proof.
  revert i. induction m as [|m IH]; intros i; [reflexivity|].
  cbn [seq wires_unique]. rewrite IH, andb_true_r.
  apply negb_true_iff.
  destruct (existsb (Nat.eqb i) (seq (S i) m)) eqn:Hex; [|reflexivity].
  apply existsb_exists in Hex. destruct Hex as [x [Hin Heq]].
  apply in_seq in Hin. apply Nat.eqb_eq in Heq. lia.
Qed.

Lemma basis_state_ok (nq : nat) (state : list Z) :
  length state = nq ->
  forallb is_bit state = true ->
  basis_state nq state (seq 0 nq) =
  Ok (one_hot (2 ^ nq) (basis_index nq state (seq 0 nq))).
Proof.
  intros Hlen Hbits. unfold basis_state.
  rewrite length_seq, Hlen, Nat.eqb_refl, Hbits.
  rewrite wires_on_device_seq by lia. rewrite wires_unique_seq.
  reflexivity.
Qed.

Lemma double_excitation_wires_ok (nq : nat) :
  (4 <= nq)%nat ->
  wires_on_device nq [0; 1; 2; 3]%nat && wires_unique [0; 1; 2; 3]%nat = true.
Proof.
  intros Hnq. unfold wires_on_device. cbn [forallb wires_unique existsb].
  assert (H0 : (0 <? nq)%nat = true) by (apply Nat.ltb_lt; lia).
  assert (H1 : (1 <? nq)%nat = true) by (apply Nat.ltb_lt; lia).
  assert (H2 : (2 <? nq)%nat = true) by (apply Nat.ltb_lt; lia).
  assert (H3 : (3 <? nq)%nat = true) by (apply Nat.ltb_lt; lia).
  rewrite H0, H1, H2, H3. reflexivity.
Qed.

Lemma double_excitation_wires_inv (nq : nat) :
  wires_on_device nq [0; 1; 2; 3]%nat && wires_unique [0; 1; 2; 3]%nat = true ->
  (4 <= nq)%nat.
Proof.
  intros Hw. apply andb_true_iff in Hw. destruct Hw as [Hw _].
  unfold wires_on_device in Hw. cbn [forallb] in Hw.
  repeat (apply andb_true_iff in Hw; destruct Hw as [? Hw]).
  match goal with Hx : (3 <? nq)%nat = true |- _ => apply Nat.ltb_lt in Hx; lia end.
Qed.

(** ** Complex arithmetic *)

Ltac cx :=
  repeat match goal with
         | a : complex |- _ => destruct a
         end;
  unfold cadd, copp, cmul, cconj, cscale, c0, c1, ci;
  cbn [fst snd]; f_equal; try ring; try lra.

Lemma copp_c0 : copp c0 = c0.
Proof. cx. Qed.

Lemma amp_map_copp (psi : statevector) (j : nat) :
  amp (map copp psi) j = copp (amp psi j).
Proof.
  unfold amp. rewrite <- copp_c0 at 1. apply map_nth.
Qed.

Lemma inner_copp (phi chi : statevector) :
  inner (map copp phi) (map copp chi) = inner phi chi.
Proof.
  unfold inner. revert chi.
  induction phi as [|a phi IH]; intros [|b chi]; try reflexivity.
  cbn [map combine csum fold_right fst snd].
  change (fold_right cadd c0 ?l) with (csum l).
  rewrite IH. f_equal. cx.
Qed.

Lemma apply_word_copp (nq : nat) (word : pauli_word) (psi : statevector) :
  apply_word nq word (map copp psi) = map copp (apply_word nq word psi).
Proof.
  unfold apply_word. rewrite map_map. apply map_ext. intros k.
  rewrite amp_map_copp.
  generalize (word_phase nq k word) (amp psi (Nat.lxor k (word_mask nq word))).
  intros p a. cx.
Qed.

Lemma expval_copp (nq : nat) (h : Hamiltonian) (psi : statevector) :
  expval nq h (map copp psi) = expval nq h psi.
Proof.
  unfold expval. f_equal. apply map_ext. intros t.
  unfold expval_word. now rewrite apply_word_copp, inner_copp.
Qed.

(** ** The double-excitation gate *)

Lemma double_excitation_amp_0 (nq w0 w1 w2 w3 : nat) (psi : statevector) (k : nat) :
  double_excitation_amp nq 0 w0 w1 w2 w3 psi k = amp psi k.
Proof.
  unfold double_excitation_amp.
  replace (0 / 2) with 0 by lra. rewrite cos_0, sin_0.
  generalize (amp psi (Nat.lxor k (wires_mask nq [w0; w1; w2; w3]))).
  generalize (amp psi k). intros a b.
  destruct (wire_bit nq k w0), (wire_bit nq k w1),
           (wire_bit nq k w2), (wire_bit nq k w3); try reflexivity; cx.
Qed.

Lemma double_excitation_0 (nq : nat) (psi : statevector) :
  (4 <= nq)%nat ->
  length psi = (2 ^ nq)%nat ->
  double_excitation nq 0 [0; 1; 2; 3]%nat psi = Ok psi.
Proof.
  intros Hnq Hlen. unfold double_excitation.
  rewrite double_excitation_wires_ok by exact Hnq. cbn [guard rbind].
  f_equal. rewrite <- Hlen.
  transitivity (map (amp psi) (seq 0 (length psi))).
  - apply map_ext. intros k. apply double_excitation_amp_0.
  - apply map_amp_seq.
Qed.

Lemma wire_bit_partner (nq k w : nat) :
  (4 <= nq)%nat -> (w < 4)%nat ->
  wire_bit nq (Nat.lxor k (wires_mask nq [0; 1; 2; 3]%nat)) w =
  negb (wire_bit nq k w).
Proof.
  intros Hnq Hw. unfold wire_bit, wires_mask. cbn [fold_right].
  rewrite !Nat.lxor_spec, !Nat.pow2_bits_eqb, Nat.bits_0.
  assert (Hw' : (w = 0 \/ w = 1 \/ w = 2 \/ w = 3)%nat) by lia.
  destruct Hw' as [-> | [-> | [-> | ->]]];
    repeat match goal with
           | |- context [(?a =? ?b)%nat] =>
               let E := fresh "E" in
               destruct (Nat.eqb_spec a b) as [E|E];
               unfold wire_pos in E; try lia
           end;
    destruct (Nat.testbit k _); reflexivity.
Qed.

Lemma in_plane_partner (nq k : nat) :
  (4 <= nq)%nat ->
  in_plane nq (Nat.lxor k (wires_mask nq [0; 1; 2; 3]%nat)) = in_plane nq k.
Proof.
  intros Hnq. unfold in_plane.
  rewrite !wire_bit_partner by lia.
  destruct (wire_bit nq k 0), (wire_bit nq k 1),
           (wire_bit nq k 2), (wire_bit nq k 3); reflexivity.
Qed.

Lemma half_shift (t : R) : (t + 2 * PI) / 2 = t / 2 + PI.
Proof. lra. Qed.

Lemma double_excitation_amp_shift (nq dim idx k : nat) (t : R) :
  (4 <= nq)%nat ->
  double_excitation_amp nq (t + 2 * PI) 0 1 2 3 (one_hot dim idx) k =
  if in_plane nq idx
  then copp (double_excitation_amp nq t 0 1 2 3 (one_hot dim idx) k)
  else double_excitation_amp nq t 0 1 2 3 (one_hot dim idx) k.
Proof.
  intros Hnq.
  pose proof (in_plane_partner nq k Hnq) as Hpartner.
  unfold double_excitation_amp. cbv zeta.
  rewrite half_shift, neg_cos, neg_sin.
  set (partner := Nat.lxor k (wires_mask nq [0; 1; 2; 3]%nat)) in *.
  destruct (in_plane nq idx) eqn:Hidx.
  - assert (Hout : in_plane nq k = false -> amp (one_hot dim idx) k = c0).
    { intros Hk. apply amp_one_hot_other. intros ->. congruence. }
    unfold in_plane in Hout.
    destruct (wire_bit nq k 0), (wire_bit nq k 1),
             (wire_bit nq k 2), (wire_bit nq k 3);
      try (rewrite Hout by reflexivity; now rewrite copp_c0);
      generalize (amp (one_hot dim idx) k) (amp (one_hot dim idx) partner);
      intros a b; cx.
  - assert (Hin : in_plane nq k = true ->
                  amp (one_hot dim idx) k = c0 /\
                  amp (one_hot dim idx) partner = c0).
    { intros Hk. split; apply amp_one_hot_other; intros E; congruence. }
    unfold in_plane in Hin.
    destruct (wire_bit nq k 0), (wire_bit nq k 1),
             (wire_bit nq k 2), (wire_bit nq k 3);
      try reflexivity;
      destruct (Hin eq_refl) as [-> ->]; cx.
Qed.

Lemma double_excitation_shift (nq idx : nat) (t : R) :
  (4 <= nq)%nat ->
  map (double_excitation_amp nq (t + 2 * PI) 0 1 2 3 (one_hot (2 ^ nq) idx))
      (seq 0 (2 ^ nq)) =
  if in_plane nq idx
  then map copp (map (double_excitation_amp nq t 0 1 2 3 (one_hot (2 ^ nq) idx))
                     (seq 0 (2 ^ nq)))
  else map (double_excitation_amp nq t 0 1 2 3 (one_hot (2 ^ nq) idx))
           (seq 0 (2 ^ nq)).
Proof.
  intros Hnq. destruct (in_plane nq idx) eqn:Hidx.
  - rewrite map_map. apply map_ext. intros k.
    now rewrite double_excitation_amp_shift, Hidx.
  - apply map_ext. intros k.
    now rewrite double_excitation_amp_shift, Hidx.
Qed.

Lemma basis_state_inv (nq : nat) (state : list Z) (ws : list nat) (psi : statevector) :
  basis_state nq state ws = Ok psi ->
  psi = one_hot (2 ^ nq) (basis_index nq state ws).
Proof.
  unfold basis_state, guard, rbind.
  destruct (length state =? length ws)%nat; [|discriminate].
  destruct (forallb is_bit state); [|discriminate].
  destruct (wires_on_device nq ws && wires_unique ws); [|discriminate].
  now intros [= <-].
Qed.

Lemma circuit_2_periodic (s : globals) (state : list Z) (t : R) :
  circuit_2 s state (t + 2 * PI) = circuit_2 s state t.
Proof.
  unfold circuit_2, execute, circuit_2_tape.
  cbn [operations measurement apply_operations apply_operation].
  set (nq := dev_wires (dev s)).
  destruct (basis_state nq state (seq 0 (qubits s))) as [psi0|e] eqn:Hprep;
    [|reflexivity].
  apply basis_state_inv in Hprep. subst psi0.
  cbn [rbind]. unfold double_excitation.
  destruct (wires_on_device nq [0; 1; 2; 3]%nat && wires_unique [0; 1; 2; 3]%nat)
    eqn:Hw; [|reflexivity].
  apply double_excitation_wires_inv in Hw.
  cbn [guard rbind].
  destruct (wires_on_device nq (wires (H s))); [|reflexivity].
  cbn [guard rbind]. f_equal.
  rewrite double_excitation_shift by exact Hw.
  destruct (in_plane nq _); [apply expval_copp | reflexivity].
Qed.

Lemma double_excitation_amp_0_map (nq : nat) (psi : statevector) :
  map (double_excitation_amp nq 0 0 1 2 3 psi) (seq 0 (length psi)) = psi.
Proof.
  transitivity (map (amp psi) (seq 0 (length psi))).
  - apply map_ext. intros k. apply double_excitation_amp_0.
  - apply map_amp_seq.
Qed.

Lemma double_excitation_ok (nq : nat) (t : R) (psi : statevector) :
  (4 <= nq)%nat ->
  double_excitation nq t [0; 1; 2; 3]%nat psi =
  Ok (map (double_excitation_amp nq t 0 1 2 3 psi) (seq 0 (2 ^ nq))).
Proof.
  intros Hnq. unfold double_excitation.
  now rewrite double_excitation_wires_ok by exact Hnq.
Qed.

Lemma circuit_2_ok (h2_0 : dataset) (state : list Z) (t : R) (psi0 : statevector) :
  let s := load h2_0 in
  let nq := qubits s in
  (4 <= nq)%nat ->
  wires_on_device nq (wires (H s)) = true ->
  basis_state nq state (seq 0 nq) = Ok psi0 ->
  circuit_2 s state t =
  Ok (expval nq (H s)
        (map (double_excitation_amp nq t 0 1 2 3 psi0) (seq 0 (2 ^ nq)))).
Proof.
  intros s nq Hnq Hwires Hprep.
  unfold circuit_2, execute, circuit_2_tape.
  cbn [operations measurement apply_operations apply_operation].
  change (dev_wires (dev s)) with nq. change (qubits s) with nq.
  rewrite Hprep. cbn [rbind].
  rewrite double_excitation_ok by exact Hnq. cbn [rbind].
  now rewrite Hwires.
Qed.

(** ** The circuit evaluator *)

(** C4.  For a dataset whose wires are [0 .. n-1] with [n >= 4], every
    bit vector of length [n] and every angle: [circuit_2] queues a
    [BasisState] and exactly one [DoubleExcitation] on wires [0,1,2,3]
    with that angle; the prepared register is the basis state whose wire
    [w] carries a 1 iff bit [w] of the vector is 1; and the value returned
    is the expectation of [H] in the rotated state. *)
Theorem circuit_2_prepares_rotates_measures :
  forall (h2_0 : dataset) (state : list Z) (t : R),
    let s := load h2_0 in
    let nq := qubits s in
    length state = nq ->
    forallb is_bit state = true ->
    (4 <= nq)%nat ->
    wires_on_device nq (wires (H s)) = true ->
    exists (idx : nat) (psi0 psi : statevector),
      operations (circuit_2_tape s state t) =
        [BasisState state (seq 0 nq); DoubleExcitation t [0; 1; 2; 3]%nat] /\
      measurement (circuit_2_tape s state t) = H s /\
      basis_state nq state (seq 0 nq) = Ok psi0 /\
      (idx < 2 ^ nq)%nat /\
      (forall w, (w < nq)%nat ->
                 wire_bit nq idx w = (nth w state 0 =? 1)%Z) /\
      (forall k, (k < 2 ^ nq)%nat ->
                 amp psi0 k = if (k =? idx)%nat then c1 else c0) /\
      double_excitation nq t [0; 1; 2; 3]%nat psi0 = Ok psi /\
      circuit_2 s state t = Ok (expval nq (H s) psi).
Proof.
  intros h2_0 state t s nq Hlen Hbits Hnq Hwires.
  pose proof (basis_state_ok nq state Hlen Hbits) as Hprep.
  destruct (basis_index_seq nq state 0 ltac:(lia) Hbits) as [Hlt Hbit].
  rewrite Hlen in Hlt, Hbit.
  exists (basis_index nq state (seq 0 nq)).
  exists (one_hot (2 ^ nq) (basis_index nq state (seq 0 nq))).
  eexists. repeat split.
  - exact Hprep.
  - exact Hlt.
  - intros w Hw. unfold wire_bit, wire_pos. now apply Hbit.
  - intros k Hk. now apply amp_one_hot.
  - now apply double_excitation_ok.
  - now apply (circuit_2_ok h2_0 state t).
Qed.

Lemma circuit_2_prepares_rotates_measures_witness :
  exists (idx : nat) (psi0 psi : statevector),
    operations (circuit_2_tape (load sample_h2) [1; 1; 0; 0]%Z (PI / 3)) =
      [BasisState [1; 1; 0; 0]%Z (seq 0 4);
       DoubleExcitation (PI / 3) [0; 1; 2; 3]%nat] /\
    measurement (circuit_2_tape (load sample_h2) [1; 1; 0; 0]%Z (PI / 3)) =
      sample_hamiltonian /\
    basis_state 4 [1; 1; 0; 0]%Z (seq 0 4) = Ok psi0 /\
    (idx < 2 ^ 4)%nat /\
    (forall w, (w < 4)%nat ->
               wire_bit 4 idx w = (nth w [1; 1; 0; 0]%Z 0 =? 1)%Z) /\
    (forall k, (k < 2 ^ 4)%nat ->
               amp psi0 k = if (k =? idx)%nat then c1 else c0) /\
    double_excitation 4 (PI / 3) [0; 1; 2; 3]%nat psi0 = Ok psi /\
    circuit_2 (load sample_h2) [1; 1; 0; 0]%Z (PI / 3) =
      Ok (expval 4 sample_hamiltonian psi).
Proof.
  apply (circuit_2_prepares_rotates_measures sample_h2 [1; 1; 0; 0]%Z (PI / 3)).
  - reflexivity.
  - reflexivity.
  - apply Nat.leb_le. reflexivity.
  - reflexivity.
Defined.

(** C6.  With theta = 0, as the script starts, applying the queued
    operations leaves the register in the Hartree-Fock basis state, and
    [circuit_2] returns the expectation of [H] in that state. *)
Theorem zero_angle_gives_reference_energy :
  forall (h2_0 : dataset),
    let s := load h2_0 in
    let nq := qubits s in
    length (hf_state h2_0) = nq ->
    forallb is_bit (hf_state h2_0) = true ->
    (4 <= nq)%nat ->
    wires_on_device nq (wires (H s)) = true ->
    exists psi_hf : statevector,
      theta s = 0 /\
      basis_state nq (hf_state h2_0) (seq 0 nq) = Ok psi_hf /\
      apply_operations nq
        (operations (circuit_2_tape s (hf_state (h2 s)) (theta s)))
        (one_hot (2 ^ nq) 0) = Ok psi_hf /\
      circuit_2 s (hf_state (h2 s)) (theta s) = Ok (expval nq (H s) psi_hf).
Proof.
  intros h2_0 s nq Hlen Hbits Hnq Hwires.
  pose proof (basis_state_ok nq (hf_state h2_0) Hlen Hbits) as Hprep.
  set (psi_hf := one_hot (2 ^ nq) (basis_index nq (hf_state h2_0) (seq 0 nq))) in *.
  assert (Hrot : map (double_excitation_amp nq 0 0 1 2 3 psi_hf) (seq 0 (2 ^ nq))
                 = psi_hf).
  { assert (Hdim : length psi_hf = (2 ^ nq)%nat) by apply length_one_hot.
    rewrite <- Hdim. apply double_excitation_amp_0_map. }
  exists psi_hf. repeat split.
  - exact Hprep.
  - change (theta s) with 0. change (hf_state (h2 s)) with (hf_state h2_0).
    cbn [circuit_2_tape operations apply_operations apply_operation].
    change (qubits s) with nq. rewrite Hprep. cbn [rbind].
    rewrite double_excitation_ok by exact Hnq. cbn [rbind].
    now rewrite Hrot.
  - change (theta s) with 0. change (hf_state (h2 s)) with (hf_state h2_0).
    rewrite <- Hrot.
    exact (circuit_2_ok h2_0 (hf_state h2_0) 0 psi_hf Hnq Hwires Hprep).
Qed.

Lemma zero_angle_gives_reference_energy_witness :
  exists psi_hf : statevector,
    theta (load sample_h2) = 0 /\
    basis_state 4 [1; 1; 0; 0]%Z (seq 0 4) = Ok psi_hf /\
    apply_operations 4
      (operations (circuit_2_tape (load sample_h2) [1; 1; 0; 0]%Z
                     (theta (load sample_h2))))
      (one_hot (2 ^ 4) 0) = Ok psi_hf /\
    circuit_2 (load sample_h2) [1; 1; 0; 0]%Z (theta (load sample_h2)) =
      Ok (expval 4 sample_hamiltonian psi_hf).
Proof.
  apply (zero_angle_gives_reference_energy sample_h2).
  - reflexivity.
  - reflexivity.
  - apply Nat.leb_le. reflexivity.
  - reflexivity.
Defined.

(** At theta = pi the gate takes [|1100>] on four wires to [- |0011>]. *)
Lemma double_excitation_pi_on_reference :
  basis_state 4 [1; 1; 0; 0]%Z (seq 0 4) = Ok (one_hot 16 12) /\
  double_excitation 4 PI [0; 1; 2; 3]%nat (one_hot 16 12) =
  Ok (map copp (one_hot 16 3)).
Proof.
  split; [reflexivity|].
  rewrite double_excitation_ok by lia. f_equal.
  change (2 ^ 4)%nat with 16%nat.
  unfold one_hot at 2. rewrite map_map.
  apply map_ext_in. intros k Hk. apply in_seq in Hk.
  unfold double_excitation_amp. cbv zeta. rewrite cos_PI2, sin_PI2.
  assert (Hcases : (k = 0 \/ k = 1 \/ k = 2 \/ k = 3 \/ k = 4 \/ k = 5 \/ k = 6 \/
                    k = 7 \/ k = 8 \/ k = 9 \/ k = 10 \/ k = 11 \/ k = 12 \/
                    k = 13 \/ k = 14 \/ k = 15)%nat) by lia.
  repeat (destruct Hcases as [-> | Hcases]); try subst k;
    repeat match goal with
           | |- context [wire_bit ?a ?b ?c] =>
               let v := eval vm_compute in (wire_bit a b c) in
               change (wire_bit a b c) with v
           end;
    cbv iota;
    repeat match goal with
           | |- context [Nat.lxor ?a ?b] =>
               let v := eval vm_compute in (Nat.lxor a b) in
               change (Nat.lxor a b) with v
           end;
    rewrite ?amp_one_hot by lia; cbn [Nat.eqb];
    unfold cadd, cscale, copp, c0, c1; cbn [fst snd]; f_equal; lra.
Qed.

(** C7, counterexample.  At theta = pi the gate does not bring the
    Hartree-Fock state [|1100>] of four wires back to itself, not even up
    to sign: its amplitude on [|1100>] is 0, the state is [- |0011>]. *)
Lemma double_excitation_pi_leaves_reference :
  ~ returns_to_reference 4 [1; 1; 0; 0]%Z PI.
Proof.
  intros [psi0 [psi [Hprep [Hrot Hsame]]]].
  apply basis_state_inv in Hprep.
  rewrite double_excitation_ok in Hrot by lia.
  injection Hrot as Hpsi.
  assert (Hamp : amp psi 12 = (1 * 0 + 0 * 1, 1 * 0 + 0 * 0)).
  { rewrite <- Hpsi, Hprep. unfold amp at 1. cbn [nth].
    unfold double_excitation_amp. cbv zeta.
    change (wire_bit 4 12 0) with true. change (wire_bit 4 12 1) with true.
    change (wire_bit 4 12 2) with false. change (wire_bit 4 12 3) with false.
    cbv iota. rewrite cos_PI2, sin_PI2.
    change (Nat.lxor 12 (wires_mask 4 [0; 1; 2; 3]%nat)) with 3%nat.
    change (amp (one_hot (2 ^ 4) (basis_index 4 [1; 1; 0; 0]%Z (seq 0 4))) 3)
      with c0.
    change (amp (one_hot (2 ^ 4) (basis_index 4 [1; 1; 0; 0]%Z (seq 0 4))) 12)
      with c1.
    reflexivity. }
  assert (Href : amp psi0 12 = c1) by (rewrite Hprep; reflexivity).
  destruct Hsame as [Heq | Heq]; rewrite Heq in Hamp.
  - rewrite Href in Hamp. unfold c1 in Hamp.
    injection Hamp as Hre _. lra.
  - rewrite amp_map_copp, Href in Hamp. unfold copp, c1 in Hamp.
    cbn [fst snd] in Hamp. injection Hamp as Hre _. lra.
Qed.

(** C7, amended.  At theta = 2 pi the gate brings every prepared basis
    state back to itself up to sign, and the value of [circuit_2] has
    period 2 pi in theta. *)
Theorem double_excitation_two_pi_period :
  forall (h2_0 : dataset) (state : list Z),
    let s := load h2_0 in
    let nq := qubits s in
    length state = nq ->
    forallb is_bit state = true ->
    (4 <= nq)%nat ->
    returns_to_reference nq state (2 * PI) /\
    forall t : R, circuit_2 s state (t + 2 * PI) = circuit_2 s state t.
Proof.
  intros h2_0 state s nq Hlen Hbits Hnq. split.
  - pose proof (basis_state_ok nq state Hlen Hbits) as Hprep.
    set (idx := basis_index nq state (seq 0 nq)) in *.
    exists (one_hot (2 ^ nq) idx). eexists. split; [exact Hprep|]. split.
    + now apply double_excitation_ok.
    + replace (2 * PI) with (0 + 2 * PI) by lra.
      rewrite double_excitation_shift by exact Hnq.
      assert (Hzero : map (double_excitation_amp nq 0 0 1 2 3 (one_hot (2 ^ nq) idx))
                          (seq 0 (2 ^ nq)) = one_hot (2 ^ nq) idx).
      { rewrite <- (length_one_hot (2 ^ nq) idx) at 2.
        apply double_excitation_amp_0_map. }
      rewrite Hzero. destruct (in_plane nq idx); [now right | now left].
  - intros t. apply circuit_2_periodic.
Qed.

Lemma double_excitation_two_pi_period_witness :
  returns_to_reference 4 [1; 1; 0; 0]%Z (2 * PI) /\
  forall t : R,
    circuit_2 (load sample_h2) [1; 1; 0; 0]%Z (t + 2 * PI) =
    circuit_2 (load sample_h2) [1; 1; 0; 0]%Z t.
Proof.
  apply (double_excitation_two_pi_period sample_h2 [1; 1; 0; 0]%Z).
  - reflexivity.
  - reflexivity.
  - apply Nat.leb_le. reflexivity.
Defined.

(** ** The energy is differentiable in theta *)

Lemma differentiable_ext (f g : R -> R) :
  (forall t, f t = g t) -> differentiable f -> differentiable g.
Proof.
  intros Heq Hf x. destruct (Hf x) as [l Hl]. exists l.
  intros eps Heps. destruct (Hl eps Heps) as [delta Hd]. exists delta.
  intros h Hh Hlt. rewrite <- !Heq. now apply Hd.
Qed.

Lemma differentiable_const (c : R) : differentiable (fun _ => c).
Proof. intros x. exists 0. apply derivable_pt_lim_const. Qed.

Lemma differentiable_plus (f g : R -> R) :
  differentiable f -> differentiable g -> differentiable (fun t => f t + g t).
Proof.
  intros Hf Hg x. destruct (Hf x) as [l1 H1]. destruct (Hg x) as [l2 H2].
  exists (l1 + l2). exact (derivable_pt_lim_plus f g x l1 l2 H1 H2).
Qed.

Lemma differentiable_minus (f g : R -> R) :
  differentiable f -> differentiable g -> differentiable (fun t => f t - g t).
Proof.
  intros Hf Hg x. destruct (Hf x) as [l1 H1]. destruct (Hg x) as [l2 H2].
  exists (l1 - l2). exact (derivable_pt_lim_minus f g x l1 l2 H1 H2).
Qed.

Lemma differentiable_opp (f : R -> R) :
  differentiable f -> differentiable (fun t => - f t).
Proof.
  intros Hf x. destruct (Hf x) as [l1 H1].
  exists (- l1). exact (derivable_pt_lim_opp f x l1 H1).
Qed.

Lemma differentiable_mult (f g : R -> R) :
  differentiable f -> differentiable g -> differentiable (fun t => f t * g t).
Proof.
  intros Hf Hg x. destruct (Hf x) as [l1 H1]. destruct (Hg x) as [l2 H2].
  exists (l1 * g x + f x * l2). exact (derivable_pt_lim_mult f g x l1 l2 H1 H2).
Qed.

Lemma differentiable_cos_half : differentiable (fun t => cos (t / 2)).
Proof.
  intros x.
  assert (D : derivable_pt (fun t => cos (t / 2)) x) by reg.
  destruct D as [l Hl]. now exists l.
Qed.

Lemma differentiable_sin_half : differentiable (fun t => sin (t / 2)).
Proof.
  intros x.
  assert (D : derivable_pt (fun t => sin (t / 2)) x) by reg.
  destruct D as [l Hl]. now exists l.
Qed.

Lemma cdifferentiable_ext (F G : R -> complex) :
  (forall t, F t = G t) -> cdifferentiable F -> cdifferentiable G.
Proof.
  intros Heq [Hre Him]. split.
  - apply (differentiable_ext (fun t => fst (F t))); [|exact Hre].
    intros t. now rewrite Heq.
  - apply (differentiable_ext (fun t => snd (F t))); [|exact Him].
    intros t. now rewrite Heq.
Qed.

Lemma cdifferentiable_const (c : complex) : cdifferentiable (fun _ => c).
Proof. split; apply differentiable_const. Qed.

Lemma cdifferentiable_cadd (F G : R -> complex) :
  cdifferentiable F -> cdifferentiable G ->
  cdifferentiable (fun t => cadd (F t) (G t)).
Proof.
  intros [Fr Fi] [Gr Gi]. split.
  - exact (differentiable_plus _ _ Fr Gr).
  - exact (differentiable_plus _ _ Fi Gi).
Qed.

Lemma cdifferentiable_copp (F : R -> complex) :
  cdifferentiable F -> cdifferentiable (fun t => copp (F t)).
Proof.
  intros [Fr Fi]. split.
  - exact (differentiable_opp _ Fr).
  - exact (differentiable_opp _ Fi).
Qed.

Lemma cdifferentiable_cconj (F : R -> complex) :
  cdifferentiable F -> cdifferentiable (fun t => cconj (F t)).
Proof.
  intros [Fr Fi]. split.
  - exact Fr.
  - exact (differentiable_opp _ Fi).
Qed.

Lemma cdifferentiable_cmul (F G : R -> complex) :
  cdifferentiable F -> cdifferentiable G ->
  cdifferentiable (fun t => cmul (F t) (G t)).
Proof.
  intros [Fr Fi] [Gr Gi]. split.
  - exact (differentiable_minus _ _ (differentiable_mult _ _ Fr Gr)
                                    (differentiable_mult _ _ Fi Gi)).
  - exact (differentiable_plus _ _ (differentiable_mult _ _ Fr Gi)
                                   (differentiable_mult _ _ Fi Gr)).
Qed.

Lemma cdifferentiable_cscale (f : R -> R) (c : complex) :
  differentiable f -> cdifferentiable (fun t => cscale (f t) c).
Proof.
  intros Hf. split.
  - exact (differentiable_mult _ _ Hf (differentiable_const (fst c))).
  - exact (differentiable_mult _ _ Hf (differentiable_const (snd c))).
Qed.

Lemma cdifferentiable_csum (A : Type) (h : R -> A -> complex) (l : list A) :
  (forall a, cdifferentiable (fun t => h t a)) ->
  cdifferentiable (fun t => csum (map (h t) l)).
Proof.
  intros Hh. induction l as [|a l IH].
  - exact (cdifferentiable_const c0).
  - exact (cdifferentiable_cadd _ _ (Hh a) IH).
Qed.

Lemma cdifferentiable_double_excitation_amp (nq w0 w1 w2 w3 : nat)
  (psi : statevector) (k : nat) :
  cdifferentiable (fun t => double_excitation_amp nq t w0 w1 w2 w3 psi k).
Proof.
  unfold double_excitation_amp. cbv zeta.
  destruct (wire_bit nq k w0), (wire_bit nq k w1),
           (wire_bit nq k w2), (wire_bit nq k w3);
    try apply cdifferentiable_const.
  - apply cdifferentiable_cadd; apply cdifferentiable_cscale;
      [apply differentiable_sin_half | apply differentiable_cos_half].
  - apply cdifferentiable_cadd;
      [|apply cdifferentiable_copp]; apply cdifferentiable_cscale;
      [apply differentiable_cos_half | apply differentiable_sin_half].
Qed.

Lemma amp_map_seq_total (f : nat -> complex) (m k : nat) :
  amp (map f (seq 0 m)) k = if (k <? m)%nat then f k else c0.
Proof.
  destruct (Nat.ltb_spec k m) as [Hlt|Hge].
  - now apply amp_map_seq.
  - unfold amp. apply nth_overflow. now rewrite length_map, length_seq.
Qed.

Lemma inner_map (A : Type) (f g : A -> complex) (l : list A) :
  inner (map f l) (map g l) = csum (map (fun a => cmul (cconj (f a)) (g a)) l).
Proof.
  unfold inner. induction l as [|a l IH]; [reflexivity|].
  cbn [map combine csum fold_right fst snd].
  change (fold_right cadd c0 ?x) with (csum x). now rewrite IH.
Qed.

Lemma differentiable_expval_word (nq : nat) (word : pauli_word)
  (F : R -> nat -> complex) :
  (forall k, cdifferentiable (fun t => F t k)) ->
  differentiable
    (fun t => expval_word nq word (map (F t) (seq 0 (2 ^ nq)))).
Proof.
  intros HF. unfold expval_word, apply_word.
  apply (differentiable_ext
           (fun t => fst (csum (map (fun k =>
              cmul (cconj (F t k))
                   (cmul (word_phase nq k word)
                         (if (Nat.lxor k (word_mask nq word) <? 2 ^ nq)%nat
                          then F t (Nat.lxor k (word_mask nq word))
                          else c0)))
              (seq 0 (2 ^ nq)))))).
  - intros t. rewrite inner_map. f_equal. f_equal. apply map_ext. intros k.
    now rewrite amp_map_seq_total.
  - apply (cdifferentiable_csum nat
             (fun t k => cmul (cconj (F t k))
                (cmul (word_phase nq k word)
                   (if (Nat.lxor k (word_mask nq word) <? 2 ^ nq)%nat
                    then F t (Nat.lxor k (word_mask nq word)) else c0)))).
    intros k. apply cdifferentiable_cmul.
    + apply cdifferentiable_cconj, HF.
    + apply cdifferentiable_cmul;
        [exact (cdifferentiable_const (word_phase nq k word))|].
      destruct (Nat.lxor k (word_mask nq word) <? 2 ^ nq)%nat;
        [apply HF | exact (cdifferentiable_const c0)].
Qed.

Lemma differentiable_expval (nq : nat) (h : Hamiltonian)
  (F : R -> nat -> complex) :
  (forall k, cdifferentiable (fun t => F t k)) ->
  differentiable (fun t => expval nq h (map (F t) (seq 0 (2 ^ nq)))).
Proof.
  intros HF. unfold expval. induction (terms h) as [|term ts IH].
  - exact (differentiable_const 0).
  - cbn [map fold_right].
    apply (differentiable_plus
             (fun t => fst term *
                       expval_word nq (snd term) (map (F t) (seq 0 (2 ^ nq))))).
    + apply (differentiable_mult (fun _ => fst term)).
      * exact (differentiable_const (fst term)).
      * now apply differentiable_expval_word.
    + exact IH.
Qed.

(** With [argnums=1], or through [circuit] as in the commented-out line 37,
    [jax.grad] returns the derivative of the energy in theta. *)
Lemma gradient_in_theta_is_derivative (h2_0 : dataset) (state : list Z) (t : R) :
  let s := load h2_0 in
  let nq := qubits s in
  length state = nq ->
  forallb is_bit state = true ->
  (4 <= nq)%nat ->
  wires_on_device nq (wires (H s)) = true ->
  exists g : R,
    jax_grad (circuit_2_py s) 1 [IntArray state; Float t] = Ok g /\
    derivable_pt_lim (fun x => value_or_zero (circuit_2 s state x)) t g.
Proof.
  intros s nq Hlen Hbits Hnq Hwires.
  pose proof (basis_state_ok nq state Hlen Hbits) as Hprep.
  pose proof (fun x => circuit_2_ok h2_0 state x _ Hnq Hwires Hprep) as Hval.
  cbv zeta in Hval. fold s in Hval. fold nq in Hval.
  assert (Hdiff : differentiable (fun x => value_or_zero (circuit_2 s state x))).
  { eapply differentiable_ext.
    - intros x. rewrite (Hval x). reflexivity.
    - apply differentiable_expval. intros k.
      apply cdifferentiable_double_excitation_amp. }
  destruct (Hdiff t) as [l Hl]. exists l. split; [|exact Hl].
  rewrite (jax_grad_argnums_1 s state t _ (Hval t)).
  f_equal. now apply Derive_unique.
Qed.

Lemma gradient_of_circuit_is_derivative (h2_0 : dataset) (t : R) :
  let s := load h2_0 in
  let nq := qubits s in
  length (hf s) = nq ->
  forallb is_bit (hf s) = true ->
  (4 <= nq)%nat ->
  wires_on_device nq (wires (H s)) = true ->
  exists g : R,
    jax_grad (circuit_py s) jax_grad_default_argnums [Float t] = Ok g /\
    derivable_pt_lim (fun x => value_or_zero (circuit s x)) t g.
Proof.
  intros s nq Hlen Hbits Hnq Hwires.
  destruct (gradient_in_theta_is_derivative h2_0 (hf s) t Hlen Hbits Hnq Hwires)
    as [g [Hg Hd]].
  exists g. split; [|exact Hd].
  unfold jax_grad in *. cbn in Hg |- *. exact Hg.
Qed.

(** ** The loop around any gradient *)

Lemma last_cons (A : Type) (a d : A) (l : list A) : last (a :: l) d = last l a.
Proof.
  revert a d. induction l as [|b l IH]; intros a d; [reflexivity|].
  change (last (a :: b :: l) d) with (last (b :: l) d).
  now rewrite !IH.
Qed.

Lemma frozen_refl (s : globals) : frozen s s.
Proof. repeat split. Qed.

Lemma frozen_trans (s s' s'' : globals) :
  frozen s s' -> frozen s' s'' -> frozen s s''.
Proof.
  unfold frozen. intros Ha Hb.
  decompose [and] Ha. decompose [and] Hb. repeat split; congruence.
Qed.

Section AnyGradient.

Variable grad : globals -> result R.

Lemma body_with_result (i : nat) (s : globals) :
  body_with grad i s =
  match grad (set_n i s) with
  | Ok g =>
      (set_theta (apply_updates (theta s)
                    (fst (update opt g (opt_state s))))
         (set_updates (fst (update opt g (opt_state s)))
                      (snd (update opt g (opt_state s)))
            (set_gradient g (set_n i s))),
       Ok tt)
  | Raise e => (set_n i s, Raise e)
  end.
Proof.
  unfold body_with, bind, modify, get, lift.
  destruct (grad (set_n i s)); reflexivity.
Qed.

Lemma body_with_frozen (i : nat) (s : globals) :
  frozen s (fst (body_with grad i s)).
Proof.
  rewrite body_with_result.
  destruct (grad (set_n i s)); repeat split.
Qed.

Lemma body_with_theta (i : nat) (s : globals) :
  let s' := fst (body_with grad i s) in
  theta s' = theta s \/
  exists g, gradient s' = Some g /\
            theta s' = apply_updates (theta s)
                         (fst (update opt g (opt_state s))).
Proof.
  cbv zeta. rewrite body_with_result.
  destruct (grad (set_n i s)) as [g|e]; [right; exists g | left];
    repeat split.
Qed.

Lemma body_with_raise (i : nat) (s : globals) (e : exn) :
  snd (body_with grad i s) = Raise e ->
  theta (fst (body_with grad i s)) = theta s.
Proof.
  rewrite body_with_result.
  destruct (grad (set_n i s)); [discriminate | reflexivity].
Qed.

Lemma for_in_frozen (l : list nat) (s : globals) :
  frozen s (final (for_in l (body_with grad) s)).
Proof.
  revert s. induction l as [|i l IH]; intros s; [apply frozen_refl|].
  cbn [for_in].
  pose proof (body_with_frozen i s) as Hstep.
  destruct (body_with grad i s) as [s' [[]|e]]; cbn [final fst] in *.
  - eapply frozen_trans; [exact Hstep | apply IH].
  - exact Hstep.
Qed.

Lemma for_in_trajectory (l : list nat) (s : globals) :
  let r := for_in l (body_with grad) s in
  length (trajectory r) = completed r /\
  theta (final r) = last (trajectory r) (theta s).
Proof.
  revert s. induction l as [|i l IH]; intros s; [split; reflexivity|].
  cbv zeta. cbn [for_in].
  pose proof (body_with_raise i s) as Hraise.
  destruct (body_with grad i s) as [s' [[]|e]];
    cbn [final completed trajectory fst snd length] in *.
  - destruct (IH s') as [Hlen Hlast]. split; [now f_equal|].
    now rewrite last_cons.
  - split; [reflexivity | now apply (Hraise e)].
Qed.

Hypothesis grad_respects :
  forall s1 s2, same_inputs s1 s2 -> grad s1 = grad s2.

Lemma body_with_same_inputs (i : nat) (s1 s2 : globals) :
  same_inputs s1 s2 ->
  snd (body_with grad i s1) = snd (body_with grad i s2) /\
  same_inputs (fst (body_with grad i s1)) (fst (body_with grad i s2)).
Proof.
  intros Hsame. rewrite !body_with_result.
  assert (Hn : same_inputs (set_n i s1) (set_n i s2)) by exact Hsame.
  rewrite (grad_respects _ _ Hn).
  destruct Hsame as (Ha & Hb & Hc & Hd & He & Hf & Hg).
  destruct (grad (set_n i s2)) as [g|e]; split; try reflexivity;
    unfold same_inputs; cbn; rewrite ?Hf, ?Hg; repeat split; assumption.
Qed.

Lemma for_in_same_inputs (l : list nat) (s1 s2 : globals) :
  same_inputs s1 s2 ->
  let r1 := for_in l (body_with grad) s1 in
  let r2 := for_in l (body_with grad) s2 in
  trajectory r1 = trajectory r2 /\ completed r1 = completed r2 /\
  status r1 = status r2 /\ same_inputs (final r1) (final r2).
Proof.
  revert s1 s2. induction l as [|i l IH]; intros s1 s2 Hsame.
  - repeat split; apply Hsame.
  - cbv zeta. cbn [for_in].
    destruct (body_with_same_inputs i s1 s2 Hsame) as [Hres Hnext].
    destruct (body_with grad i s1) as [s1' [[]|e1]];
      destruct (body_with grad i s2) as [s2' [[]|e2]];
      cbn [fst snd] in *; try discriminate.
    + destruct (IH s1' s2' Hnext) as (Ht & Hc & Hs & Hf).
      cbn [final completed trajectory status].
      repeat split; try apply Hf; try congruence.
      f_equal; [apply Hnext | exact Ht].
    + cbn [final completed trajectory status].
      repeat split; try apply Hnext. exact Hres.
Qed.

End AnyGradient.

Lemma loop_body_body_with : loop_body = body_with gradient_call.
Proof. reflexivity. Qed.

Lemma gradient_call_respects (s1 s2 : globals) :
  same_inputs s1 s2 -> gradient_call s1 = gradient_call s2.
Proof.
  intros (Ha & Hb & Hc & Hd & He & Hf & Hg).
  unfold gradient_call, circuit_2_py, circuit_2, circuit_2_tape.
  now rewrite Ha, Hb, Hc, Hd, Hf.
Qed.

(** ** Invariants of the run *)

(** C5, as the code has it.  No pass of the loop body assigns the dataset,
    [H], [qubits], [dev] or [hf], from any module state and throughout
    the run, and theta is a real scalar.  But theta is not moved once per
    pass by the optimizer's rule: every pass ends in the [TypeError] of
    the gradient call with theta and [updates] as they were, so after any
    number of passes theta is the loaded 0, no update was computed and
    no pass ran to its end. *)
Theorem problem_is_frozen_theta_never_moves :
  forall (h2_0 : dataset) (k i : nat) (s : globals),
    let p := loop_body i s in
    let r := for_in (seq 0 k) loop_body (load h2_0) in
    (h2 (fst p) = h2 s /\ H (fst p) = H s /\ qubits (fst p) = qubits s /\
     dev (fst p) = dev s /\ hf (fst p) = hf s) /\
    (snd p = Raise TypeError /\ theta (fst p) = theta s /\
     updates (fst p) = updates s) /\
    (h2 (final r) = h2_0 /\ H (final r) = hamiltonian h2_0 /\
     qubits (final r) = length (wires (hamiltonian h2_0)) /\
     dev (final r) = mkDevice (length (wires (hamiltonian h2_0))) /\
     hf (final r) = hf_state h2_0) /\
    (theta (final r) = 0 /\ updates (final r) = None /\
     completed r = 0%nat /\ trajectory r = []).
Proof.
  intros h2_0 k i s. cbv zeta.
  pose proof (body_with_frozen gradient_call i s) as Hpass.
  pose proof (for_in_frozen gradient_call (seq 0 k) (load h2_0)) as Hrun.
  rewrite <- loop_body_body_with in Hpass, Hrun.
  unfold frozen in Hpass, Hrun.
  decompose [and] Hpass. decompose [and] Hrun.
  split; [tauto|]. split.
  - rewrite loop_body_result. repeat split.
  - split; [tauto|].
    rewrite for_in_loop_body. destruct k as [|k']; cbn [seq]; repeat split.
Qed.

(** C8, as the code has it.  The run ends in its first pass with theta
    still 0: no value of theta is ever produced, and the energy at the
    final theta is the energy at the initial one. *)
Theorem energy_stays_at_reference :
  forall (h2_0 : dataset),
    theta (load h2_0) = 0 /\
    max_iterations (load h2_0) = 100%nat /\
    trajectory (main h2_0) = [] /\
    theta (final (main h2_0)) = 0 /\
    circuit_2 (final (main h2_0)) (hf_state h2_0) (theta (final (main h2_0))) =
    circuit_2 (load h2_0) (hf_state h2_0) (theta (load h2_0)).
Proof.
  intros h2_0. rewrite main_result. repeat split.
Qed.

(** C10.  [angle] is bound once, to the one-element list holding the
    initial theta; no pass of the loop body changes it, so it is [[0.0]]
    after any number of passes and when the program ends; and nothing
    reads it: a different list in its place changes nothing else. *)
Theorem angle_is_never_touched :
  forall (h2_0 : dataset) (k i : nat) (s : globals) (a : list R),
    angle (load h2_0) = [theta (load h2_0)] /\
    angle (fst (loop_body i s)) = angle s /\
    angle (final (for_in (seq 0 k) loop_body (load h2_0))) = [0] /\
    angle (final (main h2_0)) = [0] /\
    length (angle (final (main h2_0))) = 1%nat /\
    angle (final (optimization_loop (with_angle a s))) = a /\
    completed (optimization_loop (with_angle a s)) =
      completed (optimization_loop s) /\
    trajectory (optimization_loop (with_angle a s)) =
      trajectory (optimization_loop s) /\
    status (optimization_loop (with_angle a s)) = status (optimization_loop s) /\
    theta (final (optimization_loop (with_angle a s))) =
      theta (final (optimization_loop s)).
Proof.
  intros h2_0 k i s a.
  unfold main, optimization_loop. rewrite loop_body_body_with.
  assert (Hsame : same_inputs (with_angle a s) s) by (repeat split).
  destruct (for_in_same_inputs gradient_call gradient_call_respects
              (seq 0 (max_iterations s)) (with_angle a s) s Hsame)
    as (Ht & Hc & Hs & Hf).
  assert (Hpass : angle (fst (body_with gradient_call i s)) = angle s)
    by apply (body_with_frozen gradient_call i s).
  assert (Hk : angle (final (for_in (seq 0 k) (body_with gradient_call)
                               (load h2_0))) = angle (load h2_0))
    by apply (for_in_frozen gradient_call (seq 0 k) (load h2_0)).
  assert (Hend : angle (final (for_in (seq 0 (max_iterations (load h2_0)))
                                 (body_with gradient_call) (load h2_0)))
                 = angle (load h2_0))
    by apply (for_in_frozen gradient_call _ (load h2_0)).
  assert (Ha : angle (final (for_in (seq 0 (max_iterations (with_angle a s)))
                               (body_with gradient_call) (with_angle a s)))
               = angle (with_angle a s))
    by apply (for_in_frozen gradient_call _ (with_angle a s)).
  split; [reflexivity|]. split; [exact Hpass|]. split; [exact Hk|].
  split; [exact Hend|]. split; [now rewrite Hend|]. split; [exact Ha|].
  split; [exact Hc|]. split; [exact Ht|]. split; [exact Hs|]. apply Hf.
Qed.

(** * Further properties *)

(** ** Outcomes of the circuit and the state of the run *)


Lemma basis_state_seq (nq : nat) (state : list Z) :
  basis_state nq state (seq 0 nq) =
  if negb (length state =? nq)%nat || negb (forallb is_bit state)
  then Raise ValueError
  else Ok (one_hot (2 ^ nq) (basis_index nq state (seq 0 nq))).
Proof.
  unfold basis_state. rewrite length_seq.
  rewrite wires_on_device_seq by lia. rewrite wires_unique_seq.
  destruct (length state =? nq)%nat; [|reflexivity].
  destruct (forallb is_bit state); reflexivity.
Qed.

Lemma double_excitation_wires_ltb (nq : nat) :
  wires_on_device nq [0; 1; 2; 3]%nat && wires_unique [0; 1; 2; 3]%nat =
  negb (nq <? 4)%nat.
Proof.
  destruct (Nat.ltb_spec nq 4) as [Hlt|Hge]; cbn [negb].
  - destruct (wires_on_device nq [0; 1; 2; 3]%nat && wires_unique [0; 1; 2; 3]%nat)
      eqn:Hw; [|reflexivity].
    apply double_excitation_wires_inv in Hw. lia.
  - now apply double_excitation_wires_ok.
Qed.

(** X2.  What [circuit_2] returns, case by case and whatever theta is:
    [ValueError] when the state has not the register's length or holds an
    entry other than 0 and 1; otherwise [WireError] when the device has
    fewer than four wires or the Hamiltonian has a wire the device lacks;
    otherwise the expectation of [H] in the rotated basis state. *)
Theorem circuit_2_outcome :
  forall (h2_0 : dataset) (state : list Z) (t : R),
    let s := load h2_0 in
    let nq := qubits s in
    circuit_2 s state t =
    if negb (length state =? nq)%nat || negb (forallb is_bit state)
    then Raise ValueError
    else if (nq <? 4)%nat || negb (wires_on_device nq (wires (H s)))
    then Raise WireError
    else Ok (expval nq (H s)
               (map (double_excitation_amp nq t 0 1 2 3
                       (one_hot (2 ^ nq) (basis_index nq state (seq 0 nq))))
                    (seq 0 (2 ^ nq)))).
Proof.
  intros h2_0 state t s nq.
  unfold circuit_2, execute, circuit_2_tape.
  cbn [operations measurement apply_operations apply_operation].
  change (dev_wires (dev s)) with nq. change (qubits s) with nq.
  rewrite basis_state_seq.
  destruct (negb (length state =? nq)%nat || negb (forallb is_bit state));
    [reflexivity|].
  cbn [rbind]. unfold double_excitation.
  rewrite double_excitation_wires_ltb.
  destruct (nq <? 4)%nat; [reflexivity|].
  cbn [negb guard rbind orb].
  destruct (wires_on_device nq (wires (H s))); reflexivity.
Qed.

(** X1.  After any number of passes of the loop, [hf] still is
    [h2.hf_state], so [circuit(param)] and [circuit_2(h2.hf_state, param)]
    return the same result, which is also what [circuit] returned before
    the loop. *)
Theorem circuit_agrees_with_circuit_2 :
  forall (h2_0 : dataset) (k : nat) (t : R),
    let s := final (for_in (seq 0 k) loop_body (load h2_0)) in
    hf s = hf_state (h2 s) /\
    circuit s t = circuit_2 s (hf_state (h2 s)) t /\
    circuit s t = circuit (load h2_0) t.
Proof.
  intros h2_0 k t s.
  pose proof (for_in_frozen gradient_call (seq 0 k) (load h2_0)) as Hrun.
  rewrite <- loop_body_body_with in Hrun. fold s in Hrun.
  destruct Hrun as (Hh2 & HH & Hq & Hd & Hhf & _).
  assert (Heq : hf s = hf_state (h2 s)) by (rewrite Hhf, Hh2; reflexivity).
  split; [exact Heq|]. split.
  - unfold circuit, circuit_2, circuit_tape, circuit_2_tape. now rewrite Heq.
  - unfold circuit, circuit_tape. now rewrite Hd, Hhf, Hq, HH.
Qed.

(** ** The gate on a basis state *)


Lemma amp_one_hot_total (dim idx x : nat) :
  (idx < dim)%nat -> amp (one_hot dim idx) x = unit_amp idx x.
Proof.
  intros Hidx. unfold unit_amp.
  destruct (Nat.eqb_spec x idx) as [->|Hne].
  - rewrite amp_one_hot by exact Hidx. now rewrite Nat.eqb_refl.
  - now apply amp_one_hot_other.
Qed.

Lemma partner_involutive (nq k : nat) : partner nq (partner nq k) = k.
Proof.
  unfold partner.
  now rewrite Nat.lxor_assoc, Nat.lxor_nilpotent, Nat.lxor_0_r.
Qed.

Lemma partner_eq_iff (nq k idx : nat) :
  partner nq k = idx <-> k = partner nq idx.
Proof.
  split; intros E.
  - now rewrite <- E, partner_involutive.
  - now rewrite E, partner_involutive.
Qed.

Lemma wire_bit_of_partner (nq k w : nat) :
  (4 <= nq)%nat -> (w < 4)%nat ->
  wire_bit nq (partner nq k) w = negb (wire_bit nq k w).
Proof. apply wire_bit_partner. Qed.

Lemma double_excitation_amp_one_hot (nq dim idx k : nat) (t : R) :
  (4 <= nq)%nat -> (idx < dim)%nat ->
  double_excitation_amp nq t 0 1 2 3 (one_hot dim idx) k =
  if in_plane nq idx
  then cadd (cscale (cos (t / 2)) (unit_amp idx k))
            (cscale ((if wire_bit nq idx 0 then -1 else 1) * sin (t / 2))
                    (unit_amp (partner nq idx) k))
  else unit_amp idx k.
Proof.
  intros Hnq Hidx.
  pose proof (in_plane_partner nq k Hnq) as Hpk.
  pose proof (in_plane_partner nq idx Hnq) as Hpi.
  pose proof (wire_bit_partner nq idx 0 Hnq ltac:(lia)) as Hbit.
  unfold double_excitation_amp. cbv zeta.
  fold (partner nq k) in *. fold (partner nq idx) in *.
  rewrite !amp_one_hot_total by exact Hidx.
  unfold unit_amp.
  destruct (Nat.eqb_spec k idx) as [Eki|Nki];
    destruct (Nat.eqb_spec (partner nq k) idx) as [Epi|Npi];
    destruct (Nat.eqb_spec k (partner nq idx)) as [Ekp|Nkp];
    try (exfalso; apply partner_eq_iff in Epi; contradiction);
    try (exfalso; apply partner_eq_iff in Ekp; contradiction).
  - (* k = idx = partner k: impossible *)
    exfalso. subst k. unfold in_plane in Hpi.
    rewrite <- Ekp in Hbit. destruct (wire_bit nq idx 0); discriminate.
  - (* k = idx *)
    subst k. unfold in_plane.
    destruct (wire_bit nq idx 0), (wire_bit nq idx 1),
             (wire_bit nq idx 2), (wire_bit nq idx 3); cx.
  - (* k = partner idx *)
    subst k. rewrite partner_involutive in *.
    unfold in_plane in *.
    rewrite !wire_bit_of_partner by lia.
    destruct (wire_bit nq idx 0), (wire_bit nq idx 1),
             (wire_bit nq idx 2), (wire_bit nq idx 3); cbn [negb]; cx.
  - (* k elsewhere *)
    destruct (in_plane nq idx) eqn:Hin;
      destruct (wire_bit nq k 0), (wire_bit nq k 1),
               (wire_bit nq k 2), (wire_bit nq k 3); cx.
Qed.

Lemma fst_csum (l : list complex) :
  fst (csum l) = fold_right Rplus 0 (map fst l).
Proof.
  induction l as [|a l IH]; [reflexivity|].
  cbn [csum fold_right map]. unfold cadd at 1. cbn [fst].
  change (fold_right cadd c0 l) with (csum l). now rewrite IH.
Qed.

(** One Pauli word between two registers given by their amplitudes. *)
Lemma word_form (nq : nat) (word : pauli_word) (f1 f2 : nat -> complex) :
  fst (inner (map f1 (seq 0 (2 ^ nq)))
             (apply_word nq word (map f2 (seq 0 (2 ^ nq))))) =
  fold_right Rplus 0
    (map (fun k =>
            fst (cmul (cconj (f1 k))
                   (cmul (word_phase nq k word)
                      (if (Nat.lxor k (word_mask nq word) <? 2 ^ nq)%nat
                       then f2 (Nat.lxor k (word_mask nq word)) else c0))))
         (seq 0 (2 ^ nq))).
Proof.
  unfold apply_word. rewrite inner_map, fst_csum, map_map.
  f_equal. apply map_ext. intros k. now rewrite amp_map_seq_total.
Qed.

Lemma sum_expand (A : Type) (a b : R) (u v : A -> complex)
  (ph : A -> complex) (x : A -> A) (cond : A -> bool) (l : list A) :
  let g (f : A -> complex) (k : A) := if cond k then f (x k) else c0 in
  let T (f1 f2 : A -> complex) (k : A) :=
    fst (cmul (cconj (f1 k)) (cmul (ph k) (g f2 k))) in
  let f (k : A) := cadd (cscale a (u k)) (cscale b (v k)) in
  fold_right Rplus 0 (map (T f f) l) =
  a * a * fold_right Rplus 0 (map (T u u) l) +
  a * b * (fold_right Rplus 0 (map (T u v) l) +
           fold_right Rplus 0 (map (T v u) l)) +
  b * b * fold_right Rplus 0 (map (T v v) l).
Proof.
  cbv zeta. induction l as [|k l IH]; [cbn; ring|].
  cbn [map fold_right]. rewrite IH.
  destruct (cond k);
    destruct (u k) as [u1 u2], (v k) as [v1 v2], (ph k) as [p1 p2];
    try destruct (u (x k)) as [ux1 ux2]; try destruct (v (x k)) as [vx1 vx2];
    unfold cmul, cconj, cadd, cscale, c0; cbn [fst snd]; ring.
Qed.

Lemma expval_word_expand (nq : nat) (word : pauli_word) (a b : R)
  (u v : nat -> complex) :
  let d := (2 ^ nq)%nat in
  let W (f1 f2 : nat -> complex) :=
    fst (inner (map f1 (seq 0 d)) (apply_word nq word (map f2 (seq 0 d)))) in
  expval_word nq word
    (map (fun k => cadd (cscale a (u k)) (cscale b (v k))) (seq 0 d)) =
  a * a * W u u + a * b * (W u v + W v u) + b * b * W v v.
Proof.
  cbv zeta. unfold expval_word. rewrite !word_form.
  apply (sum_expand nat a b u v (fun k => word_phase nq k word)
           (fun k => Nat.lxor k (word_mask nq word))
           (fun k => (Nat.lxor k (word_mask nq word) <? 2 ^ nq)%nat)).
Qed.

Lemma expval_expand (nq : nat) (h : Hamiltonian) (a b : R)
  (u v : nat -> complex) :
  let d := (2 ^ nq)%nat in
  expval nq h (map (fun k => cadd (cscale a (u k)) (cscale b (v k))) (seq 0 d)) =
  a * a * hform nq h (map u (seq 0 d)) (map u (seq 0 d)) +
  a * b * (hform nq h (map u (seq 0 d)) (map v (seq 0 d)) +
           hform nq h (map v (seq 0 d)) (map u (seq 0 d))) +
  b * b * hform nq h (map v (seq 0 d)) (map v (seq 0 d)).
Proof.
  cbv zeta. unfold expval, hform.
  induction (terms h) as [|term ts IH]; [cbn; ring|].
  cbn [map fold_right]. rewrite IH.
  pose proof (expval_word_expand nq (snd term) a b u v) as Hw.
  cbv zeta in Hw. rewrite Hw. ring.
Qed.

Lemma hform_diag (nq : nat) (h : Hamiltonian) (psi : statevector) :
  hform nq h psi psi = expval nq h psi.
Proof. reflexivity. Qed.

(** The register after the gate, for a reference state in the plane. *)
Lemma rotated_reference (nq idx : nat) (t : R) :
  (4 <= nq)%nat -> (idx < 2 ^ nq)%nat -> in_plane nq idx = true ->
  map (double_excitation_amp nq t 0 1 2 3 (one_hot (2 ^ nq) idx))
      (seq 0 (2 ^ nq)) =
  map (fun k => cadd (cscale (cos (t / 2)) (unit_amp idx k))
                     (cscale ((if wire_bit nq idx 0 then -1 else 1)
                              * sin (t / 2))
                             (unit_amp (partner nq idx) k)))
      (seq 0 (2 ^ nq)).
Proof.
  intros Hnq Hidx Hin. apply map_ext. intros k.
  now rewrite double_excitation_amp_one_hot, Hin.
Qed.

Lemma fixed_reference (nq idx : nat) (t : R) :
  (4 <= nq)%nat -> (idx < 2 ^ nq)%nat -> in_plane nq idx = false ->
  map (double_excitation_amp nq t 0 1 2 3 (one_hot (2 ^ nq) idx))
      (seq 0 (2 ^ nq)) = one_hot (2 ^ nq) idx.
Proof.
  intros Hnq Hidx Hin.
  transitivity (map (unit_amp idx) (seq 0 (2 ^ nq))); [|reflexivity].
  apply map_ext. intros k.
  now rewrite double_excitation_amp_one_hot, Hin.
Qed.

Lemma energy_in_plane (nq : nat) (h : Hamiltonian) (idx : nat) (t : R) :
  (4 <= nq)%nat -> (idx < 2 ^ nq)%nat -> in_plane nq idx = true ->
  let d := (2 ^ nq)%nat in
  let sgn := if wire_bit nq idx 0 then -1 else 1 in
  expval nq h
    (map (double_excitation_amp nq t 0 1 2 3 (one_hot d idx)) (seq 0 d)) =
  (expval nq h (one_hot d idx) + expval nq h (one_hot d (partner nq idx))) / 2 +
  (expval nq h (one_hot d idx) - expval nq h (one_hot d (partner nq idx))) / 2
    * cos t +
  sgn * coupling nq h idx (partner nq idx) / 2 * sin t.
Proof.
  intros Hnq Hidx Hin d sgn.
  unfold d. rewrite rotated_reference by assumption.
  pose proof (expval_expand nq h (cos (t / 2)) (sgn * sin (t / 2))
                (unit_amp idx) (unit_amp (partner nq idx))) as Hex.
  cbv zeta in Hex. fold sgn. rewrite Hex.
  change (map (unit_amp idx) (seq 0 (2 ^ nq))) with (one_hot (2 ^ nq) idx).
  change (map (unit_amp (partner nq idx)) (seq 0 (2 ^ nq)))
    with (one_hot (2 ^ nq) (partner nq idx)).
  rewrite !hform_diag. unfold coupling.
  set (Ei := expval nq h (one_hot (2 ^ nq) idx)).
  set (Ej := expval nq h (one_hot (2 ^ nq) (partner nq idx))).
  set (Xij := hform nq h (one_hot (2 ^ nq) idx) (one_hot (2 ^ nq) (partner nq idx))).
  set (Xji := hform nq h (one_hot (2 ^ nq) (partner nq idx)) (one_hot (2 ^ nq) idx)).
  assert (Hc : cos t = 2 * cos (t / 2) * cos (t / 2) - 1).
  { rewrite <- cos_2a_cos. f_equal. lra. }
  assert (Hs : sin t = 2 * sin (t / 2) * cos (t / 2)).
  { rewrite <- sin_2a. f_equal. lra. }
  assert (Hone : sin (t / 2) * sin (t / 2) = 1 - cos (t / 2) * cos (t / 2)).
  { pose proof (sin2_cos2 (t / 2)) as Hsc. unfold Rsqr in Hsc. lra. }
  assert (Hsg : sgn * sgn = 1) by (unfold sgn; destruct (wire_bit nq idx 0); lra).
  rewrite Hc, Hs.
  replace (sgn * sin (t / 2) * (sgn * sin (t / 2)))
    with ((sgn * sgn) * (sin (t / 2) * sin (t / 2))) by ring.
  rewrite Hsg, Hone. field.
Qed.

(** ** Occupation bits *)

Lemma wire_bit_basis_index (nq : nat) (state : list Z) (w : nat) :
  length state = nq -> forallb is_bit state = true -> (w < nq)%nat ->
  wire_bit nq (basis_index nq state (seq 0 nq)) w = occupied state w.
Proof.
  intros Hlen Hbits Hw.
  destruct (basis_index_seq nq state 0 ltac:(lia) Hbits) as [_ Hbit].
  rewrite Hlen in Hbit. unfold wire_bit, wire_pos, occupied. now apply Hbit.
Qed.

Lemma in_plane_basis_index (nq : nat) (state : list Z) :
  length state = nq -> forallb is_bit state = true -> (4 <= nq)%nat ->
  in_plane nq (basis_index nq state (seq 0 nq)) = reference_in_plane state.
Proof.
  intros Hlen Hbits Hnq. unfold in_plane, reference_in_plane.
  now rewrite !wire_bit_basis_index by (assumption || lia).
Qed.

Lemma basis_index_lt (nq : nat) (state : list Z) :
  length state = nq -> forallb is_bit state = true ->
  (basis_index nq state (seq 0 nq) < 2 ^ nq)%nat.
Proof.
  intros Hlen Hbits.
  destruct (basis_index_seq nq state 0 ltac:(lia) Hbits) as [Hlt _].
  now rewrite Hlen in Hlt.
Qed.

(** ** The partner stays in the register *)

Lemma testbit_above (a nq m : nat) :
  (a < 2 ^ nq)%nat -> (nq <= m)%nat -> Nat.testbit a m = false.
Proof.
  intros Ha Hm. apply testbit_small.
  apply Nat.lt_le_trans with (2 ^ nq)%nat; [exact Ha|].
  apply Nat.pow_le_mono_r; lia.
Qed.

Lemma lt_pow2_of_bits (a nq : nat) :
  (forall m, (nq <= m)%nat -> Nat.testbit a m = false) -> (a < 2 ^ nq)%nat.
Proof.
  intros Hhigh.
  assert (Hmod : (a mod 2 ^ nq)%nat = a).
  { apply Nat.bits_inj. intros m.
    destruct (Nat.lt_ge_cases m nq) as [Hlt|Hge].
    - now apply Nat.mod_pow2_bits_low.
    - rewrite Nat.mod_pow2_bits_high by exact Hge. symmetry. now apply Hhigh. }
  rewrite <- Hmod. apply Nat.mod_upper_bound. apply Nat.pow_nonzero. lia.
Qed.

Lemma partner_lt (nq k : nat) :
  (4 <= nq)%nat -> (k < 2 ^ nq)%nat -> (partner nq k < 2 ^ nq)%nat.
Proof.
  intros Hnq Hk. apply lt_pow2_of_bits. intros m Hm.
  unfold partner, wires_mask. cbn [fold_right].
  rewrite !Nat.lxor_spec, !Nat.pow2_bits_eqb, Nat.bits_0.
  rewrite (testbit_above k nq m Hk Hm).
  repeat match goal with
         | |- context [(?a =? m)%nat] =>
             let E := fresh "E" in
             destruct (Nat.eqb_spec a m) as [E|E];
             unfold wire_pos in E; try lia
         end.
  reflexivity.
Qed.

Lemma partner_neq (nq k : nat) : (4 <= nq)%nat -> partner nq k <> k.
Proof.
  intros Hnq E.
  pose proof (wire_bit_of_partner nq k 0 Hnq ltac:(lia)) as Hbit.
  rewrite E in Hbit. destruct (wire_bit nq k 0); discriminate.
Qed.

(** ** Norms *)

Lemma sum_unit (i s m : nat) (x : R) :
  fold_right Rplus 0
    (map (fun k => if (k =? i)%nat then x else 0) (seq s m)) =
  if ((s <=? i) && (i <? s + m))%nat then x else 0.
Proof.
  revert s. induction m as [|m IH]; intros s.
  - cbn [seq map fold_right].
    destruct (Nat.leb_spec s i); destruct (Nat.ltb_spec i (s + 0));
      try lia; reflexivity.
  - cbn [seq map fold_right]. rewrite IH.
    destruct (Nat.eqb_spec s i) as [->|Hne].
    + replace (S i <=? i)%nat with false by (symmetry; apply Nat.leb_gt; lia).
      rewrite Nat.leb_refl.
      replace (i <? i + S m)%nat with true by (symmetry; apply Nat.ltb_lt; lia).
      cbn. ring.
    + destruct (Nat.leb_spec (S s) i) as [H1|H1];
        destruct (Nat.leb_spec s i) as [H2|H2]; try lia;
        destruct (Nat.ltb_spec i (S s + m)) as [H3|H3];
        destruct (Nat.ltb_spec i (s + S m)) as [H4|H4]; try lia;
        cbn; ring.
Qed.

Lemma norm2_two_level (d i j : nat) (a b : R) :
  (i < d)%nat -> (j < d)%nat -> i <> j ->
  norm2 (map (fun k => cadd (cscale a (unit_amp i k)) (cscale b (unit_amp j k)))
             (seq 0 d)) = a * a + b * b.
Proof.
  intros Hi Hj Hne. unfold norm2. rewrite map_map.
  transitivity
    (fold_right Rplus 0
       (map (fun k => (if (k =? i)%nat then a * a else 0) +
                      (if (k =? j)%nat then b * b else 0)) (seq 0 d))).
  - f_equal. apply map_ext. intros k. unfold unit_amp.
    destruct (Nat.eqb_spec k i); destruct (Nat.eqb_spec k j); try lia;
      unfold cadd, cscale, c0, c1; cbn [fst snd]; ring.
  - transitivity
      (fold_right Rplus 0
         (map (fun k => if (k =? i)%nat then a * a else 0) (seq 0 d)) +
       fold_right Rplus 0
         (map (fun k => if (k =? j)%nat then b * b else 0) (seq 0 d))).
    + generalize (seq 0 d). intros l.
      induction l as [|k l IH]; [cbn; ring|].
      cbn [map fold_right]. rewrite IH. ring.
    + rewrite !sum_unit. cbn [Nat.leb andb Nat.add].
      replace (i <? d)%nat with true by (symmetry; now apply Nat.ltb_lt).
      replace (j <? d)%nat with true by (symmetry; now apply Nat.ltb_lt).
      reflexivity.
Qed.

Lemma norm2_one_hot (d i : nat) : (i < d)%nat -> norm2 (one_hot d i) = 1.
Proof.
  intros Hi. unfold norm2, one_hot. rewrite map_map.
  transitivity
    (fold_right Rplus 0 (map (fun k => if (k =? i)%nat then 1 else 0) (seq 0 d))).
  - f_equal. apply map_ext. intros k.
    destruct (k =? i)%nat; unfold c0, c1; cbn [fst snd]; ring.
  - rewrite sum_unit. cbn [Nat.leb andb Nat.add].
    replace (i <? d)%nat with true by (symmetry; now apply Nat.ltb_lt).
    reflexivity.
Qed.

(** ** Derivatives *)

Lemma derivable_pt_lim_pointwise (f g : R -> R) (t l : R) :
  (forall x, f x = g x) -> derivable_pt_lim f t l -> derivable_pt_lim g t l.
Proof.
  intros Heq Hl eps Heps. destruct (Hl eps Heps) as [delta Hd].
  exists delta. intros h Hh Hlt. rewrite <- !Heq. now apply Hd.
Qed.

Lemma derivable_pt_lim_sinusoid (a b c t : R) :
  derivable_pt_lim (fun x => a + b * cos x + c * sin x) t
    (- b * sin t + c * cos t).
Proof.
  replace (- b * sin t + c * cos t) with (0 + b * (- sin t) + c * cos t) by ring.
  apply (derivable_pt_lim_plus (fun x => a + b * cos x) (fun x => c * sin x)).
  - apply (derivable_pt_lim_plus (fun _ => a) (fun x => b * cos x)).
    + apply derivable_pt_lim_const.
    + apply (derivable_pt_lim_scal cos b). apply derivable_pt_lim_cos.
  - apply (derivable_pt_lim_scal sin c). apply derivable_pt_lim_sin.
Qed.

Lemma shift_sinusoid (a b c t : R) :
  ((a + b * cos (t + PI / 2) + c * sin (t + PI / 2)) -
   (a + b * cos (t - PI / 2) + c * sin (t - PI / 2))) / 2 =
  - b * sin t + c * cos t.
Proof.
  rewrite cos_plus, sin_plus, cos_minus, sin_minus, cos_PI2, sin_PI2. field.
Qed.

(** ** The energy as a function of theta *)

Lemma wire_bit_partner_high (nq k w : nat) :
  (4 <= w)%nat -> (w < nq)%nat ->
  wire_bit nq (partner nq k) w = wire_bit nq k w.
Proof.
  intros Hw Hlt. unfold wire_bit, partner, wires_mask. cbn [fold_right].
  rewrite !Nat.lxor_spec, !Nat.pow2_bits_eqb, Nat.bits_0.
  repeat match goal with
         | |- context [(?a =? wire_pos nq w)%nat] =>
             let E := fresh "E" in
             destruct (Nat.eqb_spec a (wire_pos nq w)) as [E|E];
             unfold wire_pos in E; try lia
         end.
  now rewrite !xorb_false_r.
Qed.

Section Evaluator.

Variable h2_0 : dataset.
Variable state : list Z.

Hypothesis state_length : length state = qubits (load h2_0).
Hypothesis state_bits : forallb is_bit state = true.
Hypothesis enough_wires : (4 <= qubits (load h2_0))%nat.
Hypothesis wires_fit :
  wires_on_device (qubits (load h2_0)) (wires (H (load h2_0))) = true.

Lemma circuit_2_value (t : R) :
  circuit_2 (load h2_0) state t =
  Ok (expval (qubits (load h2_0)) (H (load h2_0))
        (map (double_excitation_amp (qubits (load h2_0)) t 0 1 2 3
                (one_hot (2 ^ qubits (load h2_0))
                   (basis_index (qubits (load h2_0)) state
                      (seq 0 (qubits (load h2_0))))))
             (seq 0 (2 ^ qubits (load h2_0))))).
Proof.
  apply (circuit_2_ok h2_0 state t _ enough_wires wires_fit).
  now apply basis_state_ok.
Qed.

Lemma energy_outside_plane (t : R) :
  reference_in_plane state = false ->
  circuit_2 (load h2_0) state t =
  Ok (expval (qubits (load h2_0)) (H (load h2_0))
        (one_hot (2 ^ qubits (load h2_0))
           (basis_index (qubits (load h2_0)) state
              (seq 0 (qubits (load h2_0)))))).
Proof.
  intros Hout. rewrite circuit_2_value.
  rewrite fixed_reference; try assumption; try reflexivity.
  - now apply basis_index_lt.
  - now rewrite in_plane_basis_index.
Qed.

Lemma energy_inside_plane (t : R) :
  reference_in_plane state = true ->
  circuit_2 (load h2_0) state t =
  Ok ((expval (qubits (load h2_0)) (H (load h2_0))
         (one_hot (2 ^ qubits (load h2_0))
            (basis_index (qubits (load h2_0)) state
               (seq 0 (qubits (load h2_0))))) +
       expval (qubits (load h2_0)) (H (load h2_0))
         (one_hot (2 ^ qubits (load h2_0))
            (partner (qubits (load h2_0))
               (basis_index (qubits (load h2_0)) state
                  (seq 0 (qubits (load h2_0))))))) / 2 +
      (expval (qubits (load h2_0)) (H (load h2_0))
         (one_hot (2 ^ qubits (load h2_0))
            (basis_index (qubits (load h2_0)) state
               (seq 0 (qubits (load h2_0))))) -
       expval (qubits (load h2_0)) (H (load h2_0))
         (one_hot (2 ^ qubits (load h2_0))
            (partner (qubits (load h2_0))
               (basis_index (qubits (load h2_0)) state
                  (seq 0 (qubits (load h2_0))))))) / 2 * cos t +
      (if occupied state 0 then -1 else 1) *
      coupling (qubits (load h2_0)) (H (load h2_0))
        (basis_index (qubits (load h2_0)) state (seq 0 (qubits (load h2_0))))
        (partner (qubits (load h2_0))
           (basis_index (qubits (load h2_0)) state
              (seq 0 (qubits (load h2_0))))) / 2 * sin t).
Proof.
  intros Hin. rewrite circuit_2_value.
  set (nq := qubits (load h2_0)) in *.
  set (i := basis_index nq state (seq 0 nq)).
  assert (Hi : (i < 2 ^ nq)%nat) by now apply basis_index_lt.
  assert (Hplane : in_plane nq i = true)
    by (unfold i; now rewrite in_plane_basis_index).
  pose proof (energy_in_plane nq (H (load h2_0)) i t enough_wires Hi Hplane)
    as He.
  cbv zeta in He. rewrite He. unfold i at 5.
  now rewrite wire_bit_basis_index by (assumption || lia).
Qed.

Lemma circuit_2_parameter_shift (t : R) :
  exists e_plus e_minus : R,
    circuit_2 (load h2_0) state (t + PI / 2) = Ok e_plus /\
    circuit_2 (load h2_0) state (t - PI / 2) = Ok e_minus /\
    derivable_pt_lim (fun x => value_or_zero (circuit_2 (load h2_0) state x)) t
      ((e_plus - e_minus) / 2).
Proof.
  destruct (reference_in_plane state) eqn:Hplane.
  - pose proof (fun x => energy_inside_plane x Hplane) as Hval.
    revert Hval.
    set (a := (_ + _) / 2). set (b := (_ - _) / 2). set (c := _ * _ / 2).
    intros Hval.
    exists (a + b * cos (t + PI / 2) + c * sin (t + PI / 2)).
    exists (a + b * cos (t - PI / 2) + c * sin (t - PI / 2)).
    split; [apply Hval|]. split; [apply Hval|].
    rewrite shift_sinusoid.
    apply (derivable_pt_lim_pointwise (fun x => a + b * cos x + c * sin x)).
    + intros x. now rewrite Hval.
    + apply derivable_pt_lim_sinusoid.
  - pose proof (fun x => energy_outside_plane x Hplane) as Hval.
    eexists. eexists. split; [apply Hval|]. split; [apply Hval|].
    match goal with |- derivable_pt_lim _ _ ?l => replace l with 0 by field end.
    apply (derivable_pt_lim_pointwise
             (fun _ => expval (qubits (load h2_0)) (H (load h2_0))
                (one_hot (2 ^ qubits (load h2_0))
                   (basis_index (qubits (load h2_0)) state
                      (seq 0 (qubits (load h2_0))))))).
    + intros x. now rewrite Hval.
    + apply derivable_pt_lim_const.
Qed.

End Evaluator.

(** X3.  A reference state that does not read [0011] or [1100] on wires
    0..3 is left alone by the gate: [circuit_2] returns the energy of the
    reference state for every theta, so its derivative in theta is 0. *)
Theorem reference_outside_plane_is_stationary :
  forall (h2_0 : dataset) (state : list Z) (t : R),
    let s := load h2_0 in
    let nq := qubits s in
    length state = nq ->
    forallb is_bit state = true ->
    (4 <= nq)%nat ->
    wires_on_device nq (wires (H s)) = true ->
    reference_in_plane state = false ->
    circuit_2 s state t =
      Ok (expval nq (H s) (one_hot (2 ^ nq) (basis_index nq state (seq 0 nq)))) /\
    circuit_2 s state t = circuit_2 s state 0 /\
    derivable_pt_lim (fun x => value_or_zero (circuit_2 s state x)) t 0.
Proof.
  intros h2_0 state t s nq Hlen Hbits Hnq Hwires Hout. subst s nq.
  pose proof (fun x => energy_outside_plane h2_0 state Hlen Hbits Hnq Hwires x Hout)
    as Hval.
  split; [apply Hval|]. split; [now rewrite !Hval|].
  eapply derivable_pt_lim_pointwise.
  - intros x. rewrite Hval. reflexivity.
  - apply derivable_pt_lim_const.
Qed.

Lemma reference_outside_plane_is_stationary_witness :
  circuit_2 (load sample_h2) [1; 0; 1; 0]%Z (PI / 3) =
    Ok (expval 4 sample_hamiltonian
          (one_hot (2 ^ 4) (basis_index 4 [1; 0; 1; 0]%Z (seq 0 4)))) /\
  circuit_2 (load sample_h2) [1; 0; 1; 0]%Z (PI / 3) =
    circuit_2 (load sample_h2) [1; 0; 1; 0]%Z 0 /\
  derivable_pt_lim
    (fun x => value_or_zero (circuit_2 (load sample_h2) [1; 0; 1; 0]%Z x))
    (PI / 3) 0.
Proof.
  apply (reference_outside_plane_is_stationary sample_h2 [1; 0; 1; 0]%Z (PI / 3)).
  - reflexivity.
  - reflexivity.
  - apply Nat.leb_le. reflexivity.
  - reflexivity.
  - reflexivity.
Defined.

(** X4.  For a reference state that reads [0011] or [1100] on wires 0..3,
    the value of [circuit_2] is a sinusoid in theta, fixed by three
    numbers: the energy [Ei] of the reference basis state, the energy [Ej]
    of the basis state with the occupations of wires 0..3 flipped, and the
    coupling of the two.  It is [Ei] at theta = 0 and [Ej] at theta = pi. *)
Theorem reference_in_plane_energy_is_sinusoidal :
  forall (h2_0 : dataset) (state : list Z) (t : R),
    let s := load h2_0 in
    let nq := qubits s in
    let i := basis_index nq state (seq 0 nq) in
    let j := partner nq i in
    let Ei := expval nq (H s) (one_hot (2 ^ nq) i) in
    let Ej := expval nq (H s) (one_hot (2 ^ nq) j) in
    let sgn := if occupied state 0 then -1 else 1 in
    length state = nq ->
    forallb is_bit state = true ->
    (4 <= nq)%nat ->
    wires_on_device nq (wires (H s)) = true ->
    reference_in_plane state = true ->
    (forall w, (w < nq)%nat ->
       wire_bit nq j w =
       if (w <? 4)%nat then negb (occupied state w) else occupied state w) /\
    circuit_2 s state t =
      Ok ((Ei + Ej) / 2 + (Ei - Ej) / 2 * cos t +
          sgn * coupling nq (H s) i j / 2 * sin t) /\
    circuit_2 s state 0 = Ok Ei /\
    circuit_2 s state PI = Ok Ej.
Proof.
  intros h2_0 state t s nq i j Ei Ej sgn Hlen Hbits Hnq Hwires Hin.
  pose proof (fun x => energy_inside_plane h2_0 state Hlen Hbits Hnq Hwires x Hin)
    as Hval.
  fold s nq i j Ei Ej sgn in Hval.
  split; [|split; [apply Hval | split]].
  - intros w Hw. destruct (Nat.ltb_spec w 4) as [Hlow|Hhigh].
    + unfold j. rewrite wire_bit_of_partner by assumption.
      unfold i. now rewrite wire_bit_basis_index.
    + unfold j. rewrite wire_bit_partner_high by assumption.
      unfold i. now rewrite wire_bit_basis_index.
  - rewrite Hval, cos_0, sin_0. f_equal. field.
  - rewrite Hval, cos_PI, sin_PI. f_equal. field.
Qed.

Lemma reference_in_plane_energy_is_sinusoidal_witness :
  (forall w, (w < 4)%nat ->
     wire_bit 4 (partner 4 (basis_index 4 [1; 1; 0; 0]%Z (seq 0 4))) w =
     if (w <? 4)%nat then negb (occupied [1; 1; 0; 0]%Z w)
     else occupied [1; 1; 0; 0]%Z w) /\
  circuit_2 (load sample_h2) [1; 1; 0; 0]%Z (PI / 3) =
    Ok ((expval 4 sample_hamiltonian (one_hot (2 ^ 4) 12) +
         expval 4 sample_hamiltonian (one_hot (2 ^ 4) (partner 4 12))) / 2 +
        (expval 4 sample_hamiltonian (one_hot (2 ^ 4) 12) -
         expval 4 sample_hamiltonian (one_hot (2 ^ 4) (partner 4 12))) / 2
          * cos (PI / 3) +
        -1 * coupling 4 sample_hamiltonian 12 (partner 4 12) / 2
          * sin (PI / 3)) /\
  circuit_2 (load sample_h2) [1; 1; 0; 0]%Z 0 =
    Ok (expval 4 sample_hamiltonian (one_hot (2 ^ 4) 12)) /\
  circuit_2 (load sample_h2) [1; 1; 0; 0]%Z PI =
    Ok (expval 4 sample_hamiltonian (one_hot (2 ^ 4) (partner 4 12))).
Proof.
  apply (reference_in_plane_energy_is_sinusoidal sample_h2 [1; 1; 0; 0]%Z (PI / 3)).
  - reflexivity.
  - reflexivity.
  - apply Nat.leb_le. reflexivity.
  - reflexivity.
  - reflexivity.
Defined.

(** X5.  For every bit vector of the register's length and every theta,
    the operations queued by [circuit_2] leave a register of [2 ^ n]
    amplitudes whose squared moduli sum to 1. *)
Theorem prepared_state_is_normalised :
  forall (h2_0 : dataset) (state : list Z) (t : R),
    let s := load h2_0 in
    let nq := qubits s in
    length state = nq ->
    forallb is_bit state = true ->
    (4 <= nq)%nat ->
    exists psi : statevector,
      apply_operations nq (operations (circuit_2_tape s state t))
        (one_hot (2 ^ nq) 0) = Ok psi /\
      length psi = (2 ^ nq)%nat /\
      norm2 psi = 1.
Proof.
  intros h2_0 state t s nq Hlen Hbits Hnq.
  set (i := basis_index nq state (seq 0 nq)).
  assert (Hi : (i < 2 ^ nq)%nat) by now apply basis_index_lt.
  exists (map (double_excitation_amp nq t 0 1 2 3 (one_hot (2 ^ nq) i))
              (seq 0 (2 ^ nq))).
  split; [|split].
  - cbn [circuit_2_tape operations apply_operations apply_operation].
    change (qubits s) with nq.
    rewrite (basis_state_ok nq state Hlen Hbits). cbn [rbind]. fold i.
    now rewrite double_excitation_ok.
  - now rewrite length_map, length_seq.
  - destruct (in_plane nq i) eqn:Hplane.
    + rewrite rotated_reference by assumption.
      rewrite norm2_two_level.
      * assert (Hsg : forall b : bool,
                  (if b then -1 else 1) * (if b then -1 else 1) = 1)
          by (intros []; lra).
        pose proof (sin2_cos2 (t / 2)) as Hsc. unfold Rsqr in Hsc.
        replace ((if wire_bit nq i 0 then -1 else 1) * sin (t / 2) *
                 ((if wire_bit nq i 0 then -1 else 1) * sin (t / 2)))
          with ((if wire_bit nq i 0 then -1 else 1) *
                (if wire_bit nq i 0 then -1 else 1) *
                (sin (t / 2) * sin (t / 2))) by ring.
        rewrite Hsg. lra.
      * exact Hi.
      * now apply partner_lt.
      * intros E. symmetry in E. now apply partner_neq in E.
    + rewrite fixed_reference by assumption. now apply norm2_one_hot.
Qed.

Lemma prepared_state_is_normalised_witness :
  exists psi : statevector,
    apply_operations 4
      (operations (circuit_2_tape (load sample_h2) [1; 1; 0; 0]%Z (PI / 3)))
      (one_hot (2 ^ 4) 0) = Ok psi /\
    length psi = (2 ^ 4)%nat /\
    norm2 psi = 1.
Proof.
  apply (prepared_state_is_normalised sample_h2 [1; 1; 0; 0]%Z (PI / 3)).
  - reflexivity.
  - reflexivity.
  - apply Nat.leb_le. reflexivity.
Defined.

(** X6.  [circuit] is differentiable in its parameter, and its derivative
    at theta is half the difference of its values at theta + pi/2 and
    theta - pi/2. *)
Theorem circuit_parameter_shift :
  forall (h2_0 : dataset) (t : R),
    let s := load h2_0 in
    let nq := qubits s in
    length (hf s) = nq ->
    forallb is_bit (hf s) = true ->
    (4 <= nq)%nat ->
    wires_on_device nq (wires (H s)) = true ->
    exists e_plus e_minus : R,
      circuit s (t + PI / 2) = Ok e_plus /\
      circuit s (t - PI / 2) = Ok e_minus /\
      derivable_pt_lim (fun x => value_or_zero (circuit s x)) t
        ((e_plus - e_minus) / 2).
Proof.
  intros h2_0 t s nq Hlen Hbits Hnq Hwires.
  exact (circuit_2_parameter_shift h2_0 (hf_state h2_0) Hlen Hbits Hnq Hwires t).
Qed.

Lemma circuit_parameter_shift_witness :
  exists e_plus e_minus : R,
    circuit (load sample_h2) (PI / 3 + PI / 2) = Ok e_plus /\
    circuit (load sample_h2) (PI / 3 - PI / 2) = Ok e_minus /\
    derivable_pt_lim (fun x => value_or_zero (circuit (load sample_h2) x))
      (PI / 3) ((e_plus - e_minus) / 2).
Proof.
  apply (circuit_parameter_shift sample_h2 (PI / 3)).
  - reflexivity.
  - reflexivity.
  - apply Nat.leb_le. reflexivity.
  - reflexivity.
Defined.

(** ** The loop variable *)




(** ** The device and the Hamiltonian's wires *)

Lemma wires_on_device_spec (nq : nat) (ws : list nat) :
  wires_on_device nq ws = true <-> forall w, In w ws -> (w < nq)%nat.
Proof.
  unfold wires_on_device. rewrite forallb_forall.
  split; intros Hall w Hin; [apply Nat.ltb_lt | apply Nat.ltb_lt]; auto.
Qed.

(** X9.  The device is created with as many wires as the Hamiltonian has
    distinct wire labels, so the Hamiltonian fits on the device exactly
    when its labels are [0 .. qubits - 1]. *)
Theorem device_fits_hamiltonian_iff :
  forall (h2_0 : dataset),
    let s := load h2_0 in
    dev_wires (dev s) = qubits s /\
    qubits s = length (wires (hamiltonian h2_0)) /\
    NoDup (wires (H s)) /\
    (wires_on_device (dev_wires (dev s)) (wires (H s)) = true <->
     forall w, In w (wires (H s)) <-> (w < qubits s)%nat).
Proof.
  intros h2_0 s.
  assert (Hnd : NoDup (wires (H s))) by apply NoDup_nodup.
  split; [reflexivity|]. split; [reflexivity|]. split; [exact Hnd|].
  change (dev_wires (dev s)) with (qubits s).
  change (qubits s) with (length (wires (H s))).
  rewrite wires_on_device_spec. split.
  - intros Hlt w. split; [apply Hlt|]. intros Hw.
    apply (NoDup_length_incl Hnd (l' := seq 0 (length (wires (H s))))).
    + now rewrite length_seq.
    + intros x Hx. apply in_seq. specialize (Hlt x Hx). lia.
    + apply in_seq. lia.
  - intros Hiff w Hin. now apply Hiff.
Qed.

(** ** Occupation vectors and basis states *)

Lemma one_hot_inj (d i j : nat) :
  (i < d)%nat -> one_hot d i = one_hot d j -> i = j.
Proof.
  intros Hi Heq.
  assert (Hamp : amp (one_hot d i) i = amp (one_hot d j) i) by now rewrite Heq.
  rewrite !amp_one_hot in Hamp by exact Hi. rewrite Nat.eqb_refl in Hamp.
  destruct (Nat.eqb_spec i j) as [E|_]; [exact E|].
  unfold c1, c0 in Hamp. injection Hamp as Hre. lra.
Qed.

(** X10.  Two occupation vectors of the register's length that prepare the
    same register are the same vector. *)
Theorem basis_state_is_injective :
  forall (nq : nat) (state1 state2 : list Z),
    length state1 = nq -> length state2 = nq ->
    forallb is_bit state1 = true -> forallb is_bit state2 = true ->
    basis_state nq state1 (seq 0 nq) = basis_state nq state2 (seq 0 nq) ->
    state1 = state2.
Proof.
  intros nq state1 state2 Hl1 Hl2 Hb1 Hb2 Heq.
  rewrite !basis_state_ok in Heq by assumption.
  injection Heq as Hhot.
  apply one_hot_inj in Hhot; [|now apply basis_index_lt].
  apply (nth_ext _ _ 0%Z 0%Z); [congruence|].
  intros w Hw. rewrite Hl1 in Hw.
  pose proof (wire_bit_basis_index nq state1 w Hl1 Hb1 Hw) as H1.
  pose proof (wire_bit_basis_index nq state2 w Hl2 Hb2 Hw) as H2.
  rewrite Hhot, H2 in H1. unfold occupied in H1.
  assert (Hin1 : is_bit (nth w state1 0%Z) = true).
  { rewrite forallb_forall in Hb1. apply Hb1, nth_In. lia. }
  assert (Hin2 : is_bit (nth w state2 0%Z) = true).
  { rewrite forallb_forall in Hb2. apply Hb2, nth_In. lia. }
  destruct (is_bit_cases _ Hin1) as [E1|E1];
    destruct (is_bit_cases _ Hin2) as [E2|E2];
    rewrite E1, E2 in *; try reflexivity; discriminate.
Qed.

Lemma basis_state_is_injective_witness :
  [1; 1; 0; 0]%Z = [1; 1; 0; 0]%Z.
Proof.
  apply (basis_state_is_injective 4 [1; 1; 0; 0]%Z [1; 1; 0; 0]%Z);
    reflexivity.
Defined.

(** ** The angle of the gate *)

Lemma double_excitation_amp_period (nq : nat) (t : R) (w0 w1 w2 w3 : nat)
  (psi : statevector) (k : nat) :
  double_excitation_amp nq (t + 4 * PI) w0 w1 w2 w3 psi k =
  double_excitation_amp nq t w0 w1 w2 w3 psi k.
Proof.
  unfold double_excitation_amp. cbv zeta.
  replace ((t + 4 * PI) / 2) with (t / 2 + PI + PI) by lra.
  now rewrite !neg_cos, !neg_sin, !Ropp_involutive.
Qed.

(** X11.  The gate has period 4 pi in its angle on every register and on
    any four wires, and so has the register [circuit_2] prepares. *)
Theorem double_excitation_period_4pi :
  forall (s : globals) (nq : nat) (state : list Z) (ws : list nat)
         (psi : statevector) (t : R),
    double_excitation nq (t + 4 * PI) ws psi = double_excitation nq t ws psi /\
    apply_operations nq (operations (circuit_2_tape s state (t + 4 * PI))) psi =
    apply_operations nq (operations (circuit_2_tape s state t)) psi.
Proof.
  intros s nq state ws psi t.
  assert (Hgate : forall ws' psi',
             double_excitation nq (t + 4 * PI) ws' psi' =
             double_excitation nq t ws' psi').
  { intros ws' psi'. unfold double_excitation.
    destruct ws' as [|w0 [|w1 [|w2 [|w3 [|w4 ws']]]]]; try reflexivity.
    destruct (wires_on_device nq [w0; w1; w2; w3] && wires_unique [w0; w1; w2; w3]);
      [|reflexivity].
    cbn [guard rbind]. f_equal. apply map_ext. intros k.
    apply double_excitation_amp_period. }
  split; [apply Hgate|].
  cbn [circuit_2_tape operations apply_operations apply_operation].
  destruct (basis_state nq state (seq 0 (qubits s))) as [psi0|e]; [|reflexivity].
  cbn [rbind]. now rewrite Hgate.
Qed.
